(** * Principal component analysis: the numeric core of the notebook

    The notebook [12_principal_components_analysis.ipynb] computes a PCA by
    hand with numpy:

<<
    Xbar  = X.mean(axis=0)
    Sigma = 1./(len(X)-1)*np.dot((X-Xbar).T,(X-Xbar))
    lamda,R = np.linalg.eig(Sigma)
    idx   = lamda.argsort()[::-1]
    lamda = lamda[idx]
    R     = R[:,idx]
    X_new = np.dot(X-Xbar,R)
    variance_fraction = lamda/lamda.sum()
    X_new[:,1] = 0
    X_simplified = np.dot(X_new,R.T) + Xbar
>>

    The embedding below follows these cells line by line.  A numpy array of
    shape (m,n) is a matrix ['M[F]_(m,n)] over an ordered field [F]: the
    arithmetic of the cells is read as exact arithmetic, so that an equation
    proved here is the equation that the floating-point run approximates.
    The eigen-solver [np.linalg.eig] is LAPACK code outside the notebook; it
    enters as a function argument [eig], and what a statement needs from it
    is a hypothesis on the one call that the notebook makes. *)

From HB Require Import structures.
From mathcomp Require Import boot order algebra.

Set Implicit Arguments.
Unset Strict Implicit.
Unset Printing Implicit Defensive.

Import Order.TTheory GRing.Theory Num.Theory.
Local Open Scope ring_scope.

(** ** Results of Python scalar arithmetic *)

(** [1./(len(X)-1)] divides two Python scalars: a zero divisor raises
    [ZeroDivisionError] and the cell stops. *)
Inductive pyresult (T : Type) : Type :=
| Ok of T
| ZeroDivisionError.

Arguments ZeroDivisionError {T}.

Definition is_ok (T : Type) (r : pyresult T) : bool :=
  if r is Ok _ then true else false.

Definition pybind (T U : Type) (r : pyresult T) (k : T -> pyresult U) :
  pyresult U :=
  if r is Ok x then k x else ZeroDivisionError.

Section PCA.

Variable F : realFieldType.

(** The solver interface: eigenvalues as a row, eigenvectors as columns. *)
Definition eigensolver : Type :=
  forall n : nat, 'M[F]_n -> 'rV[F]_n * 'M[F]_n.

(** ** numpy primitives used by the cells *)

(** [a / b] on Python floats. *)
Definition pydiv (a b : F) : pyresult F :=
  if b == 0 then ZeroDivisionError else Ok (a / b).

(** [len(X)], a Python int. *)
Definition len (m n : nat) (X : 'M[F]_(m, n)) : int := m%:Z.

(** [X.mean(axis=0)]: per-column mean.  (For [m = 0] numpy answers nan with a
    warning; statements about the mean assume at least one sample.) *)
Definition mean_axis0 (m n : nat) (X : 'M[F]_(m, n)) : 'rV[F]_n :=
  \row_j ((\sum_i X i j) / m%:R).

(** [X - v] and [X + v] with [v] of shape (n,): broadcast over the rows. *)
Definition bsub (m n : nat) (X : 'M[F]_(m, n)) (v : 'rV[F]_n) : 'M[F]_(m, n) :=
  \matrix_(i, j) (X i j - v 0 j).

Definition badd (m n : nat) (X : 'M[F]_(m, n)) (v : 'rV[F]_n) : 'M[F]_(m, n) :=
  \matrix_(i, j) (X i j + v 0 j).

(** [np.dot(A, B)] on two 2-d arrays. *)
Definition dot (m n p : nat) (A : 'M[F]_(m, n)) (B : 'M[F]_(n, p)) :
  'M[F]_(m, p) := A *m B.

(** The comparison of two positions of an array by their values. *)
Definition asc (n : nat) (w : 'rV[F]_n) : rel 'I_n :=
  fun i j => w 0 i <= w 0 j.

(** [lamda.argsort()]: the indices in ascending order of value.  For the
    short arrays of the notebook numpy's default sort is an insertion sort,
    which keeps equal values in index order; [sort] is stable as well. *)
Definition argsort (n : nat) (w : 'rV[F]_n) : n.-tuple 'I_n :=
  sort_tuple (asc w) (ord_tuple n).

(** [a[::-1]] *)
Definition reversed (n : nat) (T : Type) (t : n.-tuple T) : n.-tuple T :=
  rev_tuple t.

(** [lamda[idx]] and [R[:,idx]]: fancy indexing by an index array. *)
Definition take_idx (n : nat) (w : 'rV[F]_n) (ix : n.-tuple 'I_n) : 'rV[F]_n :=
  \row_j w 0 (tnth ix j).

Definition take_cols_idx (m n : nat) (V : 'M[F]_(m, n)) (ix : n.-tuple 'I_n) :
  'M[F]_(m, n) :=
  \matrix_(i, j) V i (tnth ix j).

(** [Z[:,:k]]: a slice keeps the columns that exist, [min k n] of them. *)
Definition slice_cols (m n : nat) (k : nat) (Z : 'M[F]_(m, n)) :
  'M[F]_(m, minn k n) :=
  \matrix_(i, j) Z i (widen_ord (geq_minr k n) j).

(** [Z[:,c] = 0]: one column overwritten with zero. *)
Definition zero_col (m n : nat) (c : nat) (Z : 'M[F]_(m, n)) : 'M[F]_(m, n) :=
  \matrix_(i, j) (if (j : nat) == c then 0 else Z i j).

(** The same assignment for every column from [k] on, which is how a
    projection is cut down to its first [k] coordinates before it is
    mapped back ([X_new[:,1] = 0] is the case n = 2, k = 1). *)
Definition zero_cols_from (m n : nat) (k : nat) (Z : 'M[F]_(m, n)) :
  'M[F]_(m, n) :=
  \matrix_(i, j) (if (k <= j)%N then 0 else Z i j).

(** [lamda.sum()] *)
Definition np_sum (n : nat) (w : 'rV[F]_n) : F := \sum_j w 0 j.

(** [np.cumsum(v)] *)
Definition cumsum (n : nat) (v : 'rV[F]_n) : 'rV[F]_n :=
  \row_j \sum_(i < n | (i <= j)%N) v 0 i.

(** ** The cells *)

(** [Xbar = X.mean(axis=0)] *)
Definition Xbar (m n : nat) (X : 'M[F]_(m, n)) : 'rV[F]_n := mean_axis0 X.

(** [Sigma = 1./(len(X)-1)*np.dot((X-Xbar).T,(X-Xbar))] *)
Definition Sigma (m n : nat) (X : 'M[F]_(m, n)) : pyresult 'M[F]_n :=
  pybind (pydiv 1 ((len X - 1)%:~R))
    (fun c => Ok (c *: dot (bsub X (Xbar X))^T (bsub X (Xbar X)))).

(** [idx = lamda.argsort()[::-1]] *)
Definition idx (n : nat) (lamda : 'rV[F]_n) : n.-tuple 'I_n :=
  reversed (argsort lamda).

(** What the fitting cells leave behind: the mean, the sorted eigenvalues
    and the matrix whose columns are the sorted eigenvectors. *)
Record model (n : nat) : Type := Model {
  model_Xbar : 'rV[F]_n;
  model_lamda : 'rV[F]_n;
  model_R : 'M[F]_n
}.

(** [lamda = lamda[idx]; R = R[:,idx]] *)
Definition sort_eig (n : nat) (wV : 'rV[F]_n * 'M[F]_n) :
  'rV[F]_n * 'M[F]_n :=
  (take_idx wV.1 (idx wV.1), take_cols_idx wV.2 (idx wV.1)).

(** The fitting cells in sequence. *)
Definition fit (eig : eigensolver) (m n : nat) (X : 'M[F]_(m, n)) :
  pyresult (model n) :=
  pybind (Sigma X) (fun S =>
    let lR := sort_eig (eig n S) in
    Ok (Model (Xbar X) lR.1 lR.2)).

(** [X_new = np.dot(X-Xbar,R)]; the same line projects held-out data
    ([X_new_test = np.dot(X_test-Xbar,R)]). *)
Definition X_new (n : nat) (M : model n) (m : nat) (X : 'M[F]_(m, n)) :
  'M[F]_(m, n) :=
  dot (bsub X (model_Xbar M)) (model_R M).

(** [X_new[:,:k]]: the first k principal coordinates. *)
Definition X_new_k (n : nat) (M : model n) (k : nat) (m : nat)
  (X : 'M[F]_(m, n)) : 'M[F]_(m, minn k n) :=
  slice_cols k (X_new M X).

(** [X_simplified = np.dot(X_new,R.T) + Xbar] *)
Definition X_simplified (n : nat) (M : model n) (m : nat) (Z : 'M[F]_(m, n)) :
  'M[F]_(m, n) :=
  badd (dot Z (model_R M)^T) (model_Xbar M).

(** [variance_fraction = lamda/lamda.sum()].  numpy divides an array by a
    scalar without raising: with a zero divisor every entry is nan or inf.
    [None] stands for that array of non-finite values. *)
Definition variance_fraction (n : nat) (lamda : 'rV[F]_n) : option 'rV[F]_n :=
  if (np_sum lamda == 0) && (0 < n)%N then None
  else Some (\row_j (lamda 0 j / np_sum lamda)).

(** ** Properties named by the statements *)

Definition symmetric_mx (n : nat) (A : 'M[F]_n) : Prop := A^T = A.

Definition positive_semidefinite (n : nat) (A : 'M[F]_n) : Prop :=
  forall v : 'rV[F]_n, 0 <= (v *m A *m v^T) 0 0.

(** Inner product of two columns. *)
Definition col_dot (m n : nat) (V : 'M[F]_(m, n)) (i j : 'I_n) : F :=
  \sum_l V l i * V l j.

Definition orthonormal_cols (m n : nat) (V : 'M[F]_(m, n)) : Prop :=
  forall i j : 'I_n, col_dot V i j = (i == j)%:R.

(** Squared Frobenius norm: the sum of squared entries. *)
Definition sqnorm (m n : nat) (A : 'M[F]_(m, n)) : F :=
  \sum_i \sum_j (A i j) ^+ 2.

(** What numpy documents of [w, v = eig(a)]: column [v[:,i]] has unit length
    and [a @ v[:,i] = w[i] * v[:,i]]. *)
Definition eig_spec (n : nat) (A : 'M[F]_n) (wV : 'rV[F]_n * 'M[F]_n) : Prop :=
  A *m wV.2 = wV.2 *m diag_mx wV.1 /\ (forall j, col_dot wV.2 j j = 1).

(** Eigenvectors returned for one repeated eigenvalue are orthogonal to each
    other (nothing to ask when the eigenvalues are pairwise distinct). *)
Definition eig_repeated_orthogonal (n : nat) (wV : 'rV[F]_n * 'M[F]_n) : Prop :=
  forall i j : 'I_n, i != j -> wV.1 0 i = wV.1 0 j -> col_dot wV.2 i j = 0.

(** The solver hypotheses of a fit: they speak of the one matrix that the
    notebook hands to [np.linalg.eig]. *)
Definition eig_spec_on (eig : eigensolver) (m n : nat) (X : 'M[F]_(m, n)) :
  Prop :=
  forall S, Sigma X = Ok S -> eig_spec S (eig n S).

Definition eig_ok_on (eig : eigensolver) (m n : nat) (X : 'M[F]_(m, n)) :
  Prop :=
  forall S, Sigma X = Ok S ->
    eig_spec S (eig n S) /\ eig_repeated_orthogonal (eig n S).

(** ** The specification's wording, for comparison with the cells *)

(** "(Xc)^T . Xc / (m-1), where Xc is the centered matrix", entry by entry. *)
Definition spec_covariance (m n : nat) (X : 'M[F]_(m, n)) : 'M[F]_n :=
  \matrix_(i, j)
    ((\sum_s (X s i - (\sum_t X t i) / m%:R) * (X s j - (\sum_t X t j) / m%:R))
     / (m%:R - 1)).

(** Fitting followed by the slice [X_new[:,:k]] of the training projection:
    the only place where the notebook asks for k components by hand. *)
Definition pca_k (eig : eigensolver) (k : nat) (m n : nat) (X : 'M[F]_(m, n)) :
  pyresult (model n * 'M[F]_(m, minn k n)) :=
  pybind (fit eig X) (fun M => Ok (M, X_new_k M k X)).

(** "Eigenpairs with equal eigenvalues keep their original computed order". *)
Definition ties_keep_order (n : nat) (w : 'rV[F]_n) : Prop :=
  forall j1 j2 : 'I_n, (j1 < j2)%N ->
    w 0 (tnth (idx w) j1) = w 0 (tnth (idx w) j2) ->
    (tnth (idx w) j1 < tnth (idx w) j2)%N.

(** "The largest-magnitude component of each eigenvector is made positive". *)
Definition sign_convention (m n : nat) (V : 'M[F]_(m, n)) : Prop :=
  forall j : 'I_n, exists2 i : 'I_m,
    (forall l, `|V l j| <= `|V i j|) & 0 < V i j.

(** ** Order relations behind [idx] *)

(** How two successive entries of [idx] compare: the larger value first and,
    among equal values, the larger original index first. *)
Definition idx_rel (n : nat) (w : 'rV[F]_n) : rel 'I_n :=
  fun x y => (w 0 y <= w 0 x) && ((w 0 x <= w 0 y) ==> (y < x)%N).

End PCA.

(** ** Concrete data over the rationals *)

(** A solver for the diagonal matrices of the examples: on a diagonal
    matrix [np.linalg.eig] answers with the diagonal and the identity
    (numpy's own example is [eig(np.diag((1, 2, 3)))]).  It is used on
    diagonal matrices only. *)
Definition eig_diag : eigensolver rat :=
  fun n A => (\row_j A j j, 1%:M).

(** The same eigenpairs with every eigenvector negated: as good an answer by
    the solver's contract. *)
Definition eig_diag_neg : eigensolver rat :=
  fun n A => (\row_j A j j, - 1%:M).

Arguments eig_diag : clear implicits.
Arguments eig_diag_neg : clear implicits.

(** [X0 = [[0,0],[0,2]]]: two samples that differ in the second feature. *)
Definition X0 : 'M[rat]_(2, 2) :=
  \matrix_(i, j) (if ((i : nat) == 1%N) && ((j : nat) == 1%N) then 2 else 0).

(** [X1 = [[1,1],[1,1]]]: two identical samples, zero variance. *)
Definition X1 : 'M[rat]_(2, 2) := const_mx 1.

(** [Xs = [[1,1]]]: a single sample. *)
Definition Xs : 'M[rat]_(1, 2) := const_mx 1.

(** The model fitted on [X0]: mean (0,1), eigenvalues (2,0), and the two
    unit vectors in swapped order. *)
Definition M0 : model rat 2 :=
  Model (\row_j (j : nat)%:R)
        (\row_j (if (j : nat) == 0%N then 2 else 0))
        (\matrix_(i, j) ((i : nat) != j)%:R).

(** The model fitted on [X0] when the solver negates its eigenvectors. *)
Definition M0_neg : model rat 2 :=
  Model (\row_j (j : nat)%:R)
        (\row_j (if (j : nat) == 0%N then 2 else 0))
        (\matrix_(i, j) - ((i : nat) != j)%:R).

(** The model fitted on [X1]: mean (1,1), eigenvalues (0,0). *)
Definition M1 : model rat 2 :=
  Model (const_mx 1) (const_mx 0) (\matrix_(i, j) ((i : nat) != j)%:R).

(** * Further cells of the notebook *)

Section MoreCells.

Variable F : realFieldType.

(** ** The rotation of the first example *)

(** [R = np.array([[np.cos(theta),-np.sin(theta)],
                   [np.sin(theta),np.cos(theta)]])], with [c] and [s] for
    the two numbers that [np.cos] and [np.sin] return. *)
Definition rotation (c s : F) : 'M[F]_2 :=
  \matrix_(i, j)
    (if (i : nat) == 0%N then (if (j : nat) == 0%N then c else - s)
     else (if (j : nat) == 0%N then s else c)).

(** [X = np.column_stack((x_1,x_2))] *)
Definition column_stack (m : nat) (x_1 x_2 : 'rV[F]_m) : 'M[F]_(m, 2) :=
  \matrix_(i, j) (if (j : nat) == 0%N then x_1 0 i else x_2 0 i).

(** [X_new = np.dot(X,R.T)] *)
Definition rotate (c s : F) (m : nat) (X : 'M[F]_(m, 2)) : 'M[F]_(m, 2) :=
  dot X (rotation c s)^T.

(** ** The reconstruction loop *)

(** [c*l]: an array times a number. *)
Definition mul_scalar (n : nat) (c : 'rV[F]_n) (l : F) : 'rV[F]_n :=
  \row_j (c 0 j * l).

(** Iterating over a 2-d array yields its rows, over a 1-d array its
    entries. *)
Definition rows_of (p n : nat) (C : 'M[F]_(p, n)) : seq 'rV[F]_n :=
  [seq row i C | i <- enum 'I_p].

Definition entries_of (p : nat) (z : 'rV[F]_p) : seq F :=
  [seq z 0 i | i <- enum 'I_p].

(** The body of
<<
    for c,l in zip(pca.components_,X_transformed[data_index]):
        if counter<n_components:
            X_reconstructed += c*l
        counter += 1
>>
    on the state [(X_reconstructed, counter)]. *)
Fixpoint reconstruct_loop (n : nat) (n_components : nat)
    (cl : seq ('rV[F]_n * F)) (st : 'rV[F]_n * nat) : 'rV[F]_n * nat :=
  if cl is (c, l) :: cl' then
    reconstruct_loop n_components cl'
      (if (st.2 < n_components)%N then st.1 + mul_scalar c l else st.1,
       st.2.+1)
  else st.

(** [X_reconstructed = 0; counter = 0], the loop, then
    [X_reconstructed += pca.mean_]. *)
Definition X_reconstructed (n : nat) (n_components : nat)
    (components : seq 'rV[F]_n) (coeffs : seq F) (mean : 'rV[F]_n) :
  'rV[F]_n :=
  (reconstruct_loop n_components (zip components coeffs) (0, 0%N)).1 + mean.

(** ** Classification accuracy *)

(** [np.diagonal(c).sum()] and [c.sum()] on a matrix of counts. *)
Definition diagonal_sum (N : nat) (c : 'M[nat]_N) : nat :=
  (\sum_i c i i)%N.

Definition count_sum (N : nat) (c : 'M[nat]_N) : nat :=
  (\sum_i \sum_j c i j)%N.

(** [accuracy = np.diagonal(c).sum()/c.sum()]: a division of numpy numbers,
    nan ([None]) when no sample was counted. *)
Definition accuracy (N : nat) (c : 'M[nat]_N) : option F :=
  if count_sum c == 0%N then None
  else Some ((diagonal_sum c)%:R / (count_sum c)%:R).

(** ** Reordered samples *)

(** [X[ix]]: the rows of [X] picked by an index array. *)
Definition take_rows_idx (m n : nat) (X : 'M[F]_(m, n)) (ix : m.-tuple 'I_m) :
  'M[F]_(m, n) :=
  \matrix_(i, j) X (tnth ix i) j.

End MoreCells.

(** ** More concrete data *)

(** The index array [[1, 0]]: two samples swapped. *)
Definition ix_swap : 2.-tuple 'I_2 := [tuple 1; 0].

(** The unit direction (1, 0). *)
Definition u10 : 'rV[rat]_2 := \row_j ((j : nat) == 0%N)%:R.

(** The features [x = (0, 2)] and [(1, 1)] of two samples. *)
Definition x02 : 'rV[rat]_2 := \row_j (if (j : nat) == 0%N then 0 else 2).
Definition x11 : 'rV[rat]_2 := const_mx 1.

(** A confusion matrix with every sample on the diagonal, and one with a
    misclassified sample: [[1,0],[0,1]] and [[1,1],[0,2]]. *)
Definition c_right : 'M[nat]_2 := \matrix_(i, j) (i == j : nat).
Definition c_wrong : 'M[nat]_2 :=
  \matrix_(i, j) (if (i : nat) == 0%N then 1%N
                  else if (j : nat) == 0%N then 0%N else 2%N).

(** * Facts about the cells *)

Ltac ord2 i := case: i => [[|[|i]] ?] //.

Section CovarianceFacts.

Variable F : realFieldType.
Implicit Types (m n : nat).

Lemma len_pred_eq0 m n (X : 'M[F]_(m, n)) :
  ((len X - 1)%:~R == 0 :> F) = (m == 1%N).
Proof. by rewrite /len intr_eq0 subr_eq0 eqz_nat. Qed.

Lemma len_pred_natr m n (X : 'M[F]_(m, n)) :
  (0 < m)%N -> (len X - 1)%:~R = (m.-1)%:R :> F.
Proof.
case: m X => [//|m] X _.
by rewrite /len -[m.+1%:Z]/(1 + m%:Z) addrC addKr.
Qed.

Lemma Sigma_Ok m n (X : 'M[F]_(m, n)) :
  m != 1%N ->
  Sigma X = Ok ((1 / (len X - 1)%:~R) *:
                dot (bsub X (Xbar X))^T (bsub X (Xbar X))).
Proof. by move=> m1; rewrite /Sigma /pydiv len_pred_eq0 (negbTE m1). Qed.

Lemma Sigma_single n (X : 'M[F]_(1, n)) : Sigma X = ZeroDivisionError.
Proof. by rewrite /Sigma /pydiv len_pred_eq0. Qed.

Lemma gram_symmetric m n (A : 'M[F]_(m, n)) (c : F) :
  symmetric_mx (c *: dot A^T A).
Proof. by rewrite /symmetric_mx /dot linearZ /= trmx_mul trmxK. Qed.

(** The quadratic form of a Gram matrix is a sum of squares. *)
Lemma gram_quadratic m n (A : 'M[F]_(m, n)) (c : F) (v : 'rV[F]_n) :
  (v *m (c *: dot A^T A) *m v^T) 0 0 = c * \sum_i ((A *m v^T) i 0) ^+ 2.
Proof.
rewrite /dot -scalemxAr -scalemxAl mxE; congr (_ * _).
rewrite mulmxA -mulmxA -[v *m A^T]trmxK trmx_mul trmxK mxE.
by apply: eq_bigr => i _; rewrite mxE expr2.
Qed.

Lemma gram_psd m n (A : 'M[F]_(m, n)) (c : F) :
  0 <= c -> positive_semidefinite (c *: dot A^T A).
Proof.
move=> c0 v; rewrite gram_quadratic mulr_ge0 // sumr_ge0 // => i _.
exact: sqr_ge0.
Qed.

Lemma Sigma_spec_covariance m n (X : 'M[F]_(m, n)) :
  m != 1%N -> Sigma X = Ok (spec_covariance X).
Proof.
move=> m1; rewrite Sigma_Ok //; congr Ok; apply/matrixP => i j.
rewrite !mxE div1r /len rmorphB /= [RHS]mulrC; congr (_^-1 * _).
by apply: eq_bigr => s _; rewrite !mxE.
Qed.

Lemma spec_covarianceE m n (X : 'M[F]_(m, n)) :
  m != 1%N ->
  spec_covariance X =
  (1 / (len X - 1)%:~R) *: dot (bsub X (Xbar X))^T (bsub X (Xbar X)).
Proof.
move=> m1; have := Sigma_spec_covariance X m1.
by rewrite Sigma_Ok // => -[].
Qed.

Lemma spec_covariance_symmetric m n (X : 'M[F]_(m, n)) :
  symmetric_mx (spec_covariance X).
Proof.
apply/matrixP => i j; rewrite !mxE; congr (_ / _).
by apply: eq_bigr => s _; rewrite mulrC.
Qed.

Lemma spec_covariance_psd m n (X : 'M[F]_(m, n)) :
  (2 <= m)%N -> positive_semidefinite (spec_covariance X).
Proof.
move=> m2; have m1 : m != 1%N by case: m m2 X => [|[|m]].
rewrite spec_covarianceE //; apply: gram_psd.
rewrite div1r invr_ge0 len_pred_natr ?ler0n //.
exact: ltn_trans m2.
Qed.

(** Every column of the centered data sums to zero. *)
Lemma centered_col_sum m n (X : 'M[F]_(m, n)) (j : 'I_n) :
  (0 < m)%N -> \sum_i (bsub X (Xbar X)) i j = 0.
Proof.
move=> m0; under eq_bigr do rewrite !mxE.
rewrite sumrB sumr_const card_ord -mulr_natr divfK ?subrr //.
by rewrite pnatr_eq0 -lt0n.
Qed.

Lemma X_new_col_sum m n (X : 'M[F]_(m, n)) (R : 'M[F]_n) (j : 'I_n) :
  (0 < m)%N -> \sum_i (dot (bsub X (Xbar X)) R) i j = 0.
Proof.
move=> m0; under eq_bigr do rewrite mxE.
rewrite exchange_big /= big1 // => l _.
by rewrite -mulr_suml centered_col_sum ?mul0r.
Qed.

Lemma bsub_badd m n (X : 'M[F]_(m, n)) (v : 'rV[F]_n) : badd (bsub X v) v = X.
Proof. by apply/matrixP => i j; rewrite !mxE subrK. Qed.

Lemma bsub0 m n (X : 'M[F]_(m, n)) : bsub X 0 = X.
Proof. by apply/matrixP => i j; rewrite !mxE subr0. Qed.

End CovarianceFacts.

Section SortFacts.

Variable F : realFieldType.
Variable n : nat.
Variable w : 'rV[F]_n.

Lemma asc_total : total (asc w).
Proof. by move=> i j; rewrite /asc le_total. Qed.

Lemma idx_rel_trans : transitive (idx_rel w).
Proof.
move=> y x z /andP[yx /implyP xy] /andP[zy /implyP yz].
rewrite /idx_rel (le_trans zy yx) /=; apply/implyP => xz.
have y_z := le_trans yx xz; have x_y := le_trans xz zy.
exact: ltn_trans (yz y_z) (xy x_y).
Qed.

Lemma idx_perm : perm_eq (idx w) (enum 'I_n).
Proof. by rewrite /idx /reversed /argsort /= perm_rev perm_sort. Qed.

Lemma idx_uniq : uniq (idx w).
Proof. by rewrite (perm_uniq idx_perm) enum_uniq. Qed.

Lemma idx_inj : injective (tnth (idx w)).
Proof.
move=> i j; rewrite !(tnth_nth i) => /eqP.
by rewrite nth_uniq ?size_tuple ?idx_uniq // => /eqP /val_inj.
Qed.

Lemma enum_ord_sorted : sorted (fun i j : 'I_n => (i < j)%N) (enum 'I_n).
Proof.
have -> : sorted (fun i j : 'I_n => (i < j)%N) (enum 'I_n)
          = sorted ltn (map val (enum 'I_n)) by rewrite sorted_map.
by rewrite val_enum_ord iota_ltn_sorted.
Qed.

(** Stability of the sort, read after the reversal. *)
Lemma idx_sorted : sorted (idx_rel w) (idx w).
Proof.
rewrite /idx /reversed /argsort /= rev_sorted.
have := @sort_stable _ (asc w) (fun i j : 'I_n => (i < j)%N) asc_total.
move=> /(_ (fun j i k => @ltn_trans j i k) (enum 'I_n)).
by rewrite enum_ord_sorted => /(_ isT).
Qed.

Lemma idx_lt (j1 j2 : 'I_n) :
  (j1 < j2)%N -> idx_rel w (tnth (idx w) j1) (tnth (idx w) j2).
Proof.
move=> lt12; rewrite !(tnth_nth j1).
apply: (sorted_ltn_nth idx_rel_trans j1 idx_sorted) => //;
  by rewrite inE size_tuple.
Qed.

Lemma idx_descending (j1 j2 : 'I_n) :
  (j1 <= j2)%N -> w 0 (tnth (idx w) j2) <= w 0 (tnth (idx w) j1).
Proof.
rewrite leq_eqVlt => /orP[/eqP /val_inj -> //|/idx_lt].
by case/andP.
Qed.

Lemma idx_ties (j1 j2 : 'I_n) :
  (j1 < j2)%N -> w 0 (tnth (idx w) j1) = w 0 (tnth (idx w) j2) ->
  (tnth (idx w) j2 < tnth (idx w) j1)%N.
Proof.
by move=> /idx_lt /andP[_ /implyP H] E; apply: H; rewrite E.
Qed.

End SortFacts.

Section EigenFacts.

Variable F : realFieldType.
Implicit Types (m n k : nat).

Lemma col_dotE m n (V : 'M[F]_(m, n)) (i j : 'I_n) :
  col_dot V i j = (V^T *m V) i j.
Proof. by rewrite /col_dot mxE; apply: eq_bigr => l _; rewrite mxE. Qed.

Lemma col_dotC m n (V : 'M[F]_(m, n)) (i j : 'I_n) :
  col_dot V i j = col_dot V j i.
Proof. by apply: eq_bigr => l _; rewrite mulrC. Qed.

Lemma orthonormal_colsP m n (V : 'M[F]_(m, n)) :
  orthonormal_cols V <-> V^T *m V = 1%:M.
Proof.
split=> [H|H i j]; last by rewrite col_dotE H !mxE.
by apply/matrixP => i j; rewrite -col_dotE H !mxE.
Qed.

Lemma orthonormal_cols_rows n (V : 'M[F]_n) :
  orthonormal_cols V -> V *m V^T = 1%:M.
Proof. by move/orthonormal_colsP/mulmx1C. Qed.

(** Eigenvectors of a symmetric matrix for two different eigenvalues are
    orthogonal: this part of orthonormality is not asked of the solver. *)
Lemma eig_distinct_orthogonal n (A : 'M[F]_n) (w : 'rV[F]_n) (V : 'M[F]_n)
    (i j : 'I_n) :
  symmetric_mx A -> A *m V = V *m diag_mx w -> w 0 i != w 0 j ->
  col_dot V i j = 0.
Proof.
move=> symA AV neq.
have E (a b : 'I_n) : (V^T *m A *m V) a b = col_dot V a b * w 0 b.
  by rewrite -mulmxA AV mulmxA mul_mx_diag mxE col_dotE.
have S : (V^T *m A *m V) i j = (V^T *m A *m V) j i.
  rewrite -[in RHS](trmxK (V^T *m A *m V)) [in RHS]mxE.
  by rewrite !trmx_mul trmxK symA mulmxA.
move: S; rewrite !E (col_dotC V j i) => /eqP.
rewrite -subr_eq0 -mulrBr mulf_eq0 subr_eq0 (eq_sym (w 0 j)) (negbTE neq) orbF.
by move/eqP.
Qed.

Lemma eig_orthonormal n (A : 'M[F]_n) (wV : 'rV[F]_n * 'M[F]_n) :
  symmetric_mx A -> eig_spec A wV -> eig_repeated_orthogonal wV ->
  orthonormal_cols wV.2.
Proof.
move=> symA [AV unit] rep i j.
case: (eqVneq i j) => [->|neq]; first exact: unit.
case: (eqVneq (wV.1 0 i) (wV.1 0 j)) => [eqw|neqw]; first exact: rep.
exact: (eig_distinct_orthogonal symA AV neqw).
Qed.

(** An eigenvalue of a positive-semidefinite matrix with a unit eigenvector
    is the value of the quadratic form at that vector. *)
Lemma psd_eig_nonneg n (A : 'M[F]_n) (wV : 'rV[F]_n * 'M[F]_n) (j : 'I_n) :
  positive_semidefinite A -> eig_spec A wV -> 0 <= wV.1 0 j.
Proof.
move=> psd [AV unit].
have := psd (row j (wV.2)^T); rewrite tr_row trmxK -row_mul.
have -> : (row j (wV.2^T *m A) *m col j wV.2) 0 0 = (wV.2^T *m A *m wV.2) j j.
  by rewrite !mxE; apply: eq_bigr => l _; rewrite !mxE.
by rewrite -mulmxA AV mulmxA mul_mx_diag mxE -col_dotE unit mul1r.
Qed.

(** The reordering of the columns keeps both properties. *)
Lemma sort_eig_orthonormal n (wV : 'rV[F]_n * 'M[F]_n) :
  orthonormal_cols wV.2 -> orthonormal_cols (sort_eig wV).2.
Proof.
move=> H i j; rewrite /col_dot /=.
under eq_bigr do rewrite !mxE.
by rewrite -/(col_dot _ _ _) H (inj_eq (@idx_inj _ _ _)).
Qed.

Lemma sort_eig_eigen n (A : 'M[F]_n) (wV : 'rV[F]_n * 'M[F]_n) :
  A *m wV.2 = wV.2 *m diag_mx wV.1 ->
  A *m (sort_eig wV).2 = (sort_eig wV).2 *m diag_mx (sort_eig wV).1.
Proof.
move=> AV; apply/matrixP => i j.
rewrite mul_mx_diag !mxE /=.
have := congr1 (fun B : 'M_n => B i (tnth (idx wV.1) j)) AV.
rewrite mul_mx_diag !mxE => <-.
by apply: eq_bigr => l _; rewrite !mxE.
Qed.

Lemma slice_cols_orthonormal m n k (V : 'M[F]_(m, n)) :
  orthonormal_cols V -> orthonormal_cols (slice_cols k V).
Proof.
move=> H a b; rewrite /col_dot; under eq_bigr do rewrite !mxE.
by rewrite -/(col_dot _ _ _) H -!val_eqE.
Qed.

End EigenFacts.

Section FitFacts.

Variable F : realFieldType.
Implicit Types (m n k : nat).

Lemma fit_single (eig : eigensolver F) n (X : 'M[F]_(1, n)) :
  fit eig X = ZeroDivisionError.
Proof. by rewrite /fit Sigma_single. Qed.

Lemma fit_Ok (eig : eigensolver F) m n (X : 'M[F]_(m, n)) :
  m != 1%N ->
  fit eig X = Ok (Model (Xbar X) (sort_eig (eig n (spec_covariance X))).1
                        (sort_eig (eig n (spec_covariance X))).2).
Proof. by move=> m1; rewrite /fit Sigma_spec_covariance. Qed.

Lemma fit_is_ok (eig : eigensolver F) m n (X : 'M[F]_(m, n)) :
  is_ok (fit eig X) = (m != 1%N).
Proof.
case: (eqVneq m 1%N) => [m1|m1]; last by rewrite fit_Ok.
by move: X; rewrite m1 => X; rewrite fit_single.
Qed.

Lemma fit_inv (eig : eigensolver F) m n (X : 'M[F]_(m, n)) (M : model F n) :
  fit eig X = Ok M ->
  [/\ m != 1%N, Sigma X = Ok (spec_covariance X)
    & M = Model (Xbar X) (sort_eig (eig n (spec_covariance X))).1
                (sort_eig (eig n (spec_covariance X))).2].
Proof.
move=> fitM; have m1 : m != 1%N by rewrite -(fit_is_ok eig X) fitM.
move: fitM; rewrite fit_Ok // => -[<-]; split=> //.
exact: Sigma_spec_covariance.
Qed.

Lemma fit_orthonormal_R (eig : eigensolver F) m n (X : 'M[F]_(m, n))
    (M : model F n) :
  fit eig X = Ok M -> eig_ok_on eig X -> orthonormal_cols (model_R M).
Proof.
move=> /fit_inv[_ SX ->] /(_ _ SX) [spec rep] /=.
apply: sort_eig_orthonormal.
exact: eig_orthonormal (@spec_covariance_symmetric _ _ _ X) spec rep.
Qed.

Lemma fit_eigen (eig : eigensolver F) m n (X : 'M[F]_(m, n)) (M : model F n) :
  fit eig X = Ok M -> eig_ok_on eig X ->
  spec_covariance X *m model_R M = model_R M *m diag_mx (model_lamda M).
Proof.
move=> /fit_inv[_ SX ->] /(_ _ SX) [[AV _] _] /=.
exact: sort_eig_eigen.
Qed.

Lemma fit_R_unitary (eig : eigensolver F) m n (X : 'M[F]_(m, n))
    (M : model F n) :
  fit eig X = Ok M -> eig_ok_on eig X ->
  (model_R M)^T *m model_R M = 1%:M /\ model_R M *m (model_R M)^T = 1%:M.
Proof.
move=> fitM ok; have H := fit_orthonormal_R fitM ok.
by split; [apply/orthonormal_colsP | apply: orthonormal_cols_rows].
Qed.

(** With pairwise different eigenvalues the documented contract is all that
    is asked of the solver. *)
Lemma eig_spec_distinct_ok (eig : eigensolver F) m n (X : 'M[F]_(m, n)) :
  eig_spec_on eig X ->
  (forall S, Sigma X = Ok S -> injective (fun j : 'I_n => (eig n S).1 0 j)) ->
  eig_ok_on eig X.
Proof.
move=> spec inj S SX; split; first exact: spec.
by move=> i j neq /(inj S SX) eq; rewrite eq eqxx in neq.
Qed.

End FitFacts.

Section ProjectionFacts.

Variable F : realFieldType.
Implicit Types (m n k : nat).

Lemma sqnormE m n (A : 'M[F]_(m, n)) : sqnorm A = \tr (A *m A^T).
Proof.
rewrite /sqnorm /mxtrace; apply: eq_bigr => i _; rewrite mxE.
by apply: eq_bigr => j _; rewrite mxE expr2.
Qed.

(** A rotation does not change the sum of squares. *)
Lemma sqnorm_mul_orth m n (D : 'M[F]_(m, n)) (R : 'M[F]_n) :
  R^T *m R = 1%:M -> sqnorm (D *m R^T) = sqnorm D.
Proof.
by move=> RR; rewrite !sqnormE trmx_mul trmxK mulmxA -(mulmxA D) RR mulmx1.
Qed.

Lemma X_simplified_residual n (M : model F n) m (X Z : 'M[F]_(m, n)) :
  model_R M *m (model_R M)^T = 1%:M ->
  X - X_simplified M Z = (X_new M X - Z) *m (model_R M)^T.
Proof.
move=> RR; rewrite /X_new /dot mulmxBl -mulmxA RR mulmx1.
by apply/matrixP => i j; rewrite !mxE opprD addrA addrAC.
Qed.

Lemma X_roundtrip n (M : model F n) m (X : 'M[F]_(m, n)) :
  model_R M *m (model_R M)^T = 1%:M -> X_simplified M (X_new M X) = X.
Proof.
by move=> RR; rewrite /X_simplified /X_new /dot -mulmxA RR mulmx1 bsub_badd.
Qed.

Lemma zero_cols_from_all m n (Z : 'M[F]_(m, n)) : zero_cols_from n Z = Z.
Proof. by apply/matrixP => i j; rewrite mxE leqNgt ltn_ord. Qed.

Lemma zero_cols_from_zero m n k (Z : 'M[F]_(m, n)) i (j : 'I_n) :
  (k <= j)%N -> zero_cols_from k Z i j = 0.
Proof. by move=> kj; rewrite mxE kj. Qed.

(** The assignment of the notebook, [X_new[:,1] = 0] on two columns. *)
Lemma zero_cols_from_col1 m (Z : 'M[F]_(m, 2)) :
  zero_cols_from 1 Z = zero_col 1 Z.
Proof. by apply/matrixP => i j; rewrite !mxE; ord2 j. Qed.

(** Among the coordinate matrices that vanish from column [k] on, the
    projection cut at [k] is the closest to the projection. *)
Lemma truncation_optimal m n k (Y Z : 'M[F]_(m, n)) :
  (forall i (j : 'I_n), (k <= j)%N -> Z i j = 0) ->
  sqnorm (Y - zero_cols_from k Y) <= sqnorm (Y - Z).
Proof.
move=> Z0; apply: ler_sum => i _; apply: ler_sum => j _; rewrite !mxE.
case: (leqP k j) => [kj|_]; first by rewrite Z0.
by rewrite subrr expr0n /= sqr_ge0.
Qed.

Lemma variance_fraction_Some n (lamda : 'rV[F]_n) :
  np_sum lamda != 0 ->
  variance_fraction lamda = Some (\row_j (lamda 0 j / np_sum lamda)).
Proof. by move=> s0; rewrite /variance_fraction (negbTE s0). Qed.

Lemma ratio_sum n (lamda : 'rV[F]_n) :
  np_sum lamda != 0 -> np_sum (\row_j (lamda 0 j / np_sum lamda)) = 1.
Proof.
move=> s0; rewrite /np_sum; under eq_bigr do rewrite mxE.
by rewrite -mulr_suml divff.
Qed.

Lemma cumsum_nondecreasing n (r : 'rV[F]_n) (j1 j2 : 'I_n) :
  (forall j, 0 <= r 0 j) -> (j1 <= j2)%N -> cumsum r 0 j1 <= cumsum r 0 j2.
Proof.
move=> r0 le12; rewrite !mxE [leRHS](bigID (fun i : 'I_n => (i <= j1)%N)) /=.
rewrite (@eq_bigl _ _ _ _ _ (fun i : 'I_n => (i <= j2)%N && (i <= j1)%N)
           (fun i : 'I_n => (i <= j1)%N)).
  by move=> i; case: (leqP i j1) => [/leq_trans->|]; rewrite ?andbF.
by rewrite lerDl sumr_ge0.
Qed.

Lemma cumsum_last n (r : 'rV[F]_n) (j : 'I_n) :
  j.+1 = n -> cumsum r 0 j = np_sum r.
Proof.
move=> jn; rewrite mxE /np_sum; apply: eq_bigl => i.
by rewrite -ltnS jn ltn_ord.
Qed.

(** [idx] on two eigenvalues, by running the sort. *)
Lemma enum_I2 : enum 'I_2 = [:: ord0; lift ord0 ord0].
Proof. by rewrite !enum_ordSl (size0nil (size_enum_ord 0)). Qed.

Lemma idx2E (w : 'rV[F]_2) :
  idx w = (if w 0 0 <= w 0 1 then [tuple 1; 0] else [tuple 0; 1]) :> seq 'I_2.
Proof.
rewrite /idx /reversed /argsort /= enum_I2 /sort /= /asc.
have -> : lift ord0 ord0 = 1 :> 'I_2 by apply: val_inj.
by case: (w 0 0 <= w 0 1).
Qed.

Lemma tnth_idx2 (w : 'rV[F]_2) (j : 'I_2) :
  tnth (idx w) j =
  if w 0 0 <= w 0 1 then (if (j : nat) == 0%N then 1 else 0)
  else (if (j : nat) == 0%N then 0 else 1).
Proof.
rewrite (tnth_nth 0) idx2E.
by case: (w 0 0 <= w 0 1); ord2 j.
Qed.

End ProjectionFacts.

(** * The cells run on the concrete data *)

Lemma diag_of_diag_mx n (d : 'rV[rat]_n) : \row_j (diag_mx d) j j = d.
Proof. by apply/rowP => j; rewrite !mxE eqxx mulr1n. Qed.

Lemma col_dot_1 n (i j : 'I_n) : col_dot (1%:M : 'M[rat]_n) i j = (i == j)%:R.
Proof. by rewrite col_dotE trmx1 mul1mx mxE. Qed.

Lemma col_dot_N1 n (i j : 'I_n) :
  col_dot (- 1%:M : 'M[rat]_n) i j = (i == j)%:R.
Proof.
rewrite -col_dot_1; apply: eq_bigr => l _.
by rewrite !mxE mulrNN.
Qed.

(** Both model solvers honour the contract on every diagonal matrix. *)
Lemma eig_diag_ok n (d : 'rV[rat]_n) :
  eig_spec (diag_mx d) (eig_diag n (diag_mx d)) /\
  eig_repeated_orthogonal (eig_diag n (diag_mx d)).
Proof.
rewrite /eig_spec /eig_repeated_orthogonal /eig_diag /= diag_of_diag_mx.
split; first split; first by rewrite mulmx1 mul1mx.
  by move=> j; rewrite col_dot_1 eqxx.
by move=> i j /negbTE ij _; rewrite col_dot_1 ij.
Qed.

Lemma eig_diag_neg_ok n (d : 'rV[rat]_n) :
  eig_spec (diag_mx d) (eig_diag_neg n (diag_mx d)) /\
  eig_repeated_orthogonal (eig_diag_neg n (diag_mx d)).
Proof.
rewrite /eig_spec /eig_repeated_orthogonal /eig_diag_neg /= diag_of_diag_mx.
split; first split; first by rewrite mulmxN mulNmx mulmx1 mul1mx.
  by move=> j; rewrite col_dot_N1 eqxx.
by move=> i j /negbTE ij _; rewrite col_dot_N1 ij.
Qed.

Lemma Xbar_X0 : Xbar X0 = \row_j (j : nat)%:R.
Proof.
apply/rowP => j; rewrite !mxE !big_ord_recl big_ord0 !mxE /=.
by ord2 j.
Qed.

(** The covariance of [X0] is [[0,0],[0,2]]. *)
Lemma spec_covariance_X0 :
  spec_covariance X0 = diag_mx (\row_j (if (j : nat) == 0%N then 0 else 2)).
Proof.
apply/matrixP => i j; rewrite !mxE !big_ord_recl !big_ord0 !mxE /=.
by ord2 i; ord2 j.
Qed.

Lemma Sigma_X0 :
  Sigma X0 = Ok (diag_mx (\row_j (if (j : nat) == 0%N then 0 else 2))).
Proof. by rewrite Sigma_spec_covariance // spec_covariance_X0. Qed.

Lemma eig_diag_ok_X0 : eig_ok_on eig_diag X0.
Proof. by move=> S; rewrite Sigma_X0 => -[<-]; exact: eig_diag_ok. Qed.

Lemma eig_diag_spec_X0 : eig_spec_on eig_diag X0.
Proof. by move=> S /eig_diag_ok_X0 []. Qed.

Lemma eig_diag_neg_ok_X0 : eig_ok_on eig_diag_neg X0.
Proof. by move=> S; rewrite Sigma_X0 => -[<-]; exact: eig_diag_neg_ok. Qed.

Lemma fit_X0 : fit eig_diag X0 = Ok M0.
Proof.
rewrite fit_Ok // Xbar_X0 spec_covariance_X0 /sort_eig /M0 /=.
congr (Ok (Model _ _ _)).
  by apply/rowP => j; rewrite !mxE tnth_idx2 !mxE /=; ord2 j.
apply/matrixP => i j; rewrite !mxE tnth_idx2 !mxE /=.
by ord2 i; ord2 j.
Qed.

Lemma fit_neg_X0 : fit eig_diag_neg X0 = Ok M0_neg.
Proof.
rewrite fit_Ok // Xbar_X0 spec_covariance_X0 /sort_eig /M0_neg /=.
congr (Ok (Model _ _ _)).
  by apply/rowP => j; rewrite !mxE tnth_idx2 !mxE /=; ord2 j.
apply/matrixP => i j; rewrite !mxE tnth_idx2 !mxE /=.
by ord2 i; ord2 j.
Qed.

(** The projection of [X0] is [[-1,0],[1,0]]: all of the spread on the first
    principal axis. *)
Lemma X_new_X0 :
  X_new M0 X0 =
  \matrix_(i, j) (if (j : nat) == 0%N then (if (i : nat) == 0%N then -1 else 1)
                  else 0).
Proof.
apply/matrixP => i j; rewrite !mxE !big_ord_recl big_ord0 !mxE /=.
by ord2 i; ord2 j.
Qed.

(** Cell 17 on [X0]: the second coordinate carries nothing, and dropping
    it gives [X0] back. *)
Lemma X_simplified_X0 : X_simplified M0 (zero_col 1 (X_new M0 X0)) = X0.
Proof.
rewrite X_new_X0; apply/matrixP => i j.
rewrite !mxE !big_ord_recl big_ord0 !mxE /=.
by ord2 i; ord2 j.
Qed.

Lemma np_sum_M0 : np_sum (model_lamda M0) = 2.
Proof. by rewrite /np_sum !big_ord_recl big_ord0 !mxE. Qed.

Lemma variance_fraction_M0 :
  variance_fraction (model_lamda M0) =
  Some (\row_j (if (j : nat) == 0%N then 1 else 0)).
Proof.
rewrite variance_fraction_Some np_sum_M0 //; congr Some.
by apply/rowP => j; rewrite !mxE; ord2 j.
Qed.

Lemma Xbar_X1 : Xbar X1 = const_mx 1.
Proof. by apply/rowP => j; rewrite !mxE !big_ord_recl big_ord0 !mxE. Qed.

(** The covariance of the constant data [X1] is zero. *)
Lemma spec_covariance_X1 : spec_covariance X1 = diag_mx (const_mx 0).
Proof.
apply/matrixP => i j; rewrite !mxE !big_ord_recl !big_ord0 !mxE /=.
by rewrite mul0rn.
Qed.

Lemma Sigma_X1 : Sigma X1 = Ok (diag_mx (const_mx 0)).
Proof. by rewrite Sigma_spec_covariance // spec_covariance_X1. Qed.

Lemma eig_diag_ok_X1 : eig_ok_on eig_diag X1.
Proof. by move=> S; rewrite Sigma_X1 => -[<-]; exact: eig_diag_ok. Qed.

Lemma fit_X1 : fit eig_diag X1 = Ok M1.
Proof.
rewrite fit_Ok // Xbar_X1 spec_covariance_X1 /sort_eig /M1 /=.
congr (Ok (Model _ _ _)).
  by apply/rowP => j; rewrite !mxE mul0rn.
apply/matrixP => i j; rewrite !mxE tnth_idx2 !mxE /=.
by ord2 i; ord2 j.
Qed.

Lemma np_sum_M1 : np_sum (model_lamda M1) = 0.
Proof. by rewrite /np_sum !big_ord_recl big_ord0 !mxE. Qed.

(** * The statements *)

Section Statements.

Variable F : realFieldType.
Implicit Types (m n k : nat).

(** C1. For a model fitted by the cells, projecting any data [X'] of the
    model's width with [X_new] and mapping it back with [X_simplified]
    returns [X'] when all n coordinates are kept.  When the coordinates from
    k on are set to zero first, the result is the least-squares-best
    reconstruction among all those built from k leading coordinates of the
    learned basis.  (Exact arithmetic; the solver is assumed to honour its
    contract on the covariance matrix of the fit.) *)
Theorem X_simplified_X_new_roundtrip (eig : eigensolver F) m n
    (X : 'M[F]_(m, n)) (M : model F n) m' (X' : 'M[F]_(m', n)) :
  fit eig X = Ok M -> eig_ok_on eig X ->
  [/\ X_simplified M (X_new M X') = X',
      X_simplified M (zero_cols_from n (X_new M X')) = X',
      forall k i (j : 'I_n),
        (k <= j)%N -> zero_cols_from k (X_new M X') i j = 0
    & forall k (Z : 'M[F]_(m', n)),
        (forall i (j : 'I_n), (k <= j)%N -> Z i j = 0) ->
        sqnorm (X' - X_simplified M (zero_cols_from k (X_new M X')))
        <= sqnorm (X' - X_simplified M Z)].
Proof.
move=> fitM ok; have [RtR RRt] := fit_R_unitary fitM ok.
split=> [||k i j|k Z Z0]; rewrite ?zero_cols_from_all ?X_roundtrip //.
  exact: zero_cols_from_zero.
by rewrite !X_simplified_residual // !sqnorm_mul_orth // truncation_optimal.
Qed.

(** C2. For data with at least two samples the cell [Sigma] returns the
    matrix (Xc)^T Xc / (m-1) of the mean-centered data, and that matrix is
    symmetric and positive-semidefinite. *)
Theorem Sigma_unbiased_covariance m n (X : 'M[F]_(m, n)) :
  (2 <= m)%N ->
  [/\ Sigma X = Ok (spec_covariance X),
      symmetric_mx (spec_covariance X)
    & positive_semidefinite (spec_covariance X)].
Proof.
move=> m2; split.
- by apply: Sigma_spec_covariance; case: m m2 X => [|[|m]].
- exact: spec_covariance_symmetric.
- exact: spec_covariance_psd.
Qed.

(** C3. [X_new] subtracts the model's mean from every sample and takes the
    inner product with each eigenvector; the slice to k columns keeps the
    inner products with the first k of them, k values per sample when
    k <= n; row i of the output is computed from row i of the input alone,
    so the samples keep their order. *)
Theorem X_new_inner_products n (M : model F n) m (X : 'M[F]_(m, n)) k :
  [/\ forall i j,
        X_new M X i j = \sum_l (X i l - model_Xbar M 0 l) * model_R M l j,
      forall i (j : 'I_(minn k n)),
        X_new_k M k X i j =
        \sum_l (X i l - model_Xbar M 0 l)
               * model_R M l (widen_ord (geq_minr k n) j),
      forall i, row i (X_new M X) = X_new M (row i X)
    & (k <= n)%N -> minn k n = k].
Proof.
have E i j : X_new M X i j = \sum_l (X i l - model_Xbar M 0 l) * model_R M l j.
  by rewrite !mxE; apply: eq_bigr => l _; rewrite !mxE.
split=> // [i j|i|/minn_idPl //]; first by rewrite mxE E.
apply/rowP => j; rewrite mxE E !mxE; apply: eq_bigr => l _.
by rewrite !mxE.
Qed.


(** C5, as amended.  When the fitted eigenvalues do not sum to zero,
    [variance_fraction] is each eigenvalue divided by the sum of all n
    eigenvalues; the fractions sum to 1, their running sum is
    non-decreasing and its last entry is the full sum. *)
Theorem variance_fraction_of_fit (eig : eigensolver F) m n
    (X : 'M[F]_(m, n)) (M : model F n) :
  (2 <= m)%N -> fit eig X = Ok M -> eig_spec_on eig X ->
  np_sum (model_lamda M) != 0 ->
  exists r : 'rV[F]_n,
  [/\ variance_fraction (model_lamda M) = Some r,
      forall j, r 0 j = model_lamda M 0 j / (\sum_i model_lamda M 0 i),
      np_sum r = 1,
      forall j1 j2 : 'I_n, (j1 <= j2)%N -> cumsum r 0 j1 <= cumsum r 0 j2
    & forall j : 'I_n, j.+1 = n -> cumsum r 0 j = np_sum r].
Proof.
move=> m2 fitM ok s0.
exists (\row_j (model_lamda M 0 j / np_sum (model_lamda M))).
have psd := spec_covariance_psd X m2.
have [m1 SX EM] := fit_inv fitM.
have spec := ok _ SX.
have lam0 j : 0 <= model_lamda M 0 j.
  by rewrite EM /= mxE; exact: psd_eig_nonneg psd spec.
have s_ge0 : 0 <= np_sum (model_lamda M) by rewrite sumr_ge0.
split=> [|j||j1 j2|j].
- exact: variance_fraction_Some.
- by rewrite mxE.
- exact: ratio_sum.
- by apply: cumsum_nondecreasing => j; rewrite mxE divr_ge0.
- exact: cumsum_last.
Qed.




(** C10. The projection of the training data on all n components has
    column means 0, and the covariance cell applied to it returns the
    diagonal matrix of the fitted eigenvalues: zero off the diagonal, the
    eigenvalues in non-increasing order on it.  (Exact arithmetic, solver
    contract assumed.) *)
Theorem X_new_decorrelated (eig : eigensolver F) m n
    (X : 'M[F]_(m, n)) (M : model F n) :
  (2 <= m)%N -> fit eig X = Ok M -> eig_ok_on eig X ->
  [/\ Xbar (X_new M X) = 0,
      Sigma (X_new M X) = Ok (diag_mx (model_lamda M)),
      forall i j : 'I_n,
        diag_mx (model_lamda M) i j = if i == j then model_lamda M 0 i else 0
    & forall j1 j2 : 'I_n,
        (j1 <= j2)%N -> model_lamda M 0 j2 <= model_lamda M 0 j1].
Proof.
move=> m2 fitM ok; have m0 : (0 < m)%N by exact: ltn_trans m2.
have [RtR _] := fit_R_unitary fitM ok.
have eigen := fit_eigen fitM ok.
have [m1 _ EM] := fit_inv fitM.
have XbarM : model_Xbar M = Xbar X by rewrite EM.
have mean0 : Xbar (X_new M X) = 0.
  apply/rowP => j; rewrite /X_new XbarM !mxE.
  by rewrite -/(dot _ _) X_new_col_sum // mul0r.
split=> // [|i j|j1 j2 le12].
- rewrite Sigma_Ok // mean0 bsub0 /X_new XbarM /dot; congr Ok.
  rewrite trmx_mul -[LHS]/((1 / (len X - 1)%:~R) *: _).
  have -> : (1 / (len X - 1)%:~R) *:
            ((model_R M)^T *m (bsub X (Xbar X))^T
             *m (bsub X (Xbar X) *m model_R M))
            = (model_R M)^T *m spec_covariance X *m model_R M.
    by rewrite spec_covarianceE // /dot -scalemxAr -scalemxAl !mulmxA.
  by rewrite -mulmxA eigen mulmxA RtR mul1mx.
- by rewrite !mxE; case: (i == j); rewrite ?mulr1n ?mulr0n.
- by rewrite EM /= !mxE; exact: idx_descending.
Qed.

End Statements.

(** * The statements at the concrete data *)

(** C1 at the model fitted on [X0], round trip of the other data [X1]. *)
Lemma X_simplified_X_new_roundtrip_witness :
  [/\ fit eig_diag X0 = Ok M0, eig_ok_on eig_diag X0
    & [/\ X_simplified M0 (X_new M0 X1) = X1,
          X_simplified M0 (zero_cols_from 2 (X_new M0 X1)) = X1,
          forall k i (j : 'I_2),
            (k <= j)%N -> zero_cols_from k (X_new M0 X1) i j = 0
        & forall k (Z : 'M[rat]_(2, 2)),
            (forall i (j : 'I_2), (k <= j)%N -> Z i j = 0) ->
            sqnorm (X1 - X_simplified M0 (zero_cols_from k (X_new M0 X1)))
            <= sqnorm (X1 - X_simplified M0 Z)]].
Proof.
split; [exact: fit_X0 | exact: eig_diag_ok_X0 |].
exact: (X_simplified_X_new_roundtrip X1 fit_X0 eig_diag_ok_X0).
Defined.

(** C2 at [X0]. *)
Lemma Sigma_unbiased_covariance_witness :
  (2 <= 2)%N /\
  [/\ Sigma X0 = Ok (spec_covariance X0),
      symmetric_mx (spec_covariance X0)
    & positive_semidefinite (spec_covariance X0)].
Proof.
split; [exact: isT | exact: (@Sigma_unbiased_covariance rat 2 2 X0 isT)].
Defined.

(** C3 at [M0], [X0] and one retained coordinate. *)
Lemma X_new_inner_products_witness :
  (1 <= 2)%N /\
  [/\ forall i j,
        X_new M0 X0 i j = \sum_l (X0 i l - model_Xbar M0 0 l) * model_R M0 l j,
      forall i (j : 'I_(minn 1 2)),
        X_new_k M0 1 X0 i j =
        \sum_l (X0 i l - model_Xbar M0 0 l)
               * model_R M0 l (widen_ord (geq_minr 1 2) j),
      forall i, row i (X_new M0 X0) = X_new M0 (row i X0)
    & minn 1 2 = 1%N].
Proof.
have [entries sliced rows width] := X_new_inner_products M0 X0 1.
by split; [ | split; [exact: entries | exact: sliced | exact: rows
                      | exact: width]].
Defined.



(** C5 at [X0]: the eigenvalues (2,0) sum to 2. *)
Lemma variance_fraction_of_fit_witness :
  [/\ (2 <= 2)%N, fit eig_diag X0 = Ok M0, eig_spec_on eig_diag X0,
      np_sum (model_lamda M0) != 0
    & exists r : 'rV[rat]_2,
      [/\ variance_fraction (model_lamda M0) = Some r,
          forall j, r 0 j = model_lamda M0 0 j / (\sum_i model_lamda M0 0 i),
          np_sum r = 1,
          forall j1 j2 : 'I_2, (j1 <= j2)%N -> cumsum r 0 j1 <= cumsum r 0 j2
        & forall j : 'I_2, j.+1 = 2%N -> cumsum r 0 j = np_sum r]].
Proof.
have s0 : np_sum (model_lamda M0) != 0 by rewrite np_sum_M0.
split; [exact: isT | exact: fit_X0 | exact: eig_diag_spec_X0 | exact: s0 |].
exact (@variance_fraction_of_fit rat eig_diag 2 2 X0 M0 isT fit_X0
         eig_diag_spec_X0 s0).
Defined.

(** C5 as first stated fails on the constant data [X1]: every eigenvalue
    is 0, the division is 0/0 and no fraction is a number. *)
Lemma variance_fraction_nan_X1 :
  [/\ fit eig_diag X1 = Ok M1, eig_ok_on eig_diag X1,
      variance_fraction (model_lamda M1) = None
    & ~ (exists r, variance_fraction (model_lamda M1) = Some r
                   /\ np_sum r = 1)].
Proof.
have E : variance_fraction (model_lamda M1) = None.
  by rewrite /variance_fraction np_sum_M1 eqxx.
split=> //; [exact: fit_X1 | exact: eig_diag_ok_X1 |].
by rewrite E => -[r []].
Qed.






(** C10 at [X0]. *)
Lemma X_new_decorrelated_witness :
  [/\ (2 <= 2)%N, fit eig_diag X0 = Ok M0, eig_ok_on eig_diag X0
    & [/\ Xbar (X_new M0 X0) = 0,
          Sigma (X_new M0 X0) = Ok (diag_mx (model_lamda M0)),
          forall i j : 'I_2,
            diag_mx (model_lamda M0) i j
            = if i == j then model_lamda M0 0 i else 0
        & forall j1 j2 : 'I_2,
            (j1 <= j2)%N -> model_lamda M0 0 j2 <= model_lamda M0 0 j1]].
Proof.
split; [exact: isT | exact: fit_X0 | exact: eig_diag_ok_X0 |].
exact (@X_new_decorrelated rat eig_diag 2 2 X0 M0 isT fit_X0 eig_diag_ok_X0).
Defined.

(** * Facts about the further cells *)

Section RotationFacts.

Variable F : realFieldType.
Implicit Types (m : nat) (c s : F).

Lemma rotation_trK c s :
  c ^+ 2 + s ^+ 2 = 1 -> (rotation c s)^T *m rotation c s = 1%:M.
Proof.
move=> cs; have cs' : c ^+ 2 = 1 - s ^+ 2 by rewrite -cs addrK.
apply/matrixP => i j.
rewrite !mxE !big_ord_recl big_ord0 !mxE /= addr0.
by ord2 i; ord2 j; rewrite /= ?mulr1n ?mulr0n; ring: cs'.
Qed.

Lemma rotation_Ktr c s :
  c ^+ 2 + s ^+ 2 = 1 -> rotation c s *m (rotation c s)^T = 1%:M.
Proof. by move/rotation_trK/mulmx1C. Qed.

Lemma lift01 : lift ord0 ord0 = 1 :> 'I_2.
Proof. exact: val_inj. Qed.

Lemma ord2_cases (j : 'I_2) : j = 0 \/ j = 1.
Proof. by ord2 j; [left | right]; apply: val_inj. Qed.

Lemma rotate_entries c s m (X : 'M[F]_(m, 2)) i :
  rotate c s X i 0 = X i 0 * c - X i 1 * s /\
  rotate c s X i 1 = X i 0 * s + X i 1 * c.
Proof.
by split; rewrite !mxE !big_ord_recl big_ord0 !mxE /= addr0 ?mulrN lift01.
Qed.

Lemma sqnorm_mul_orthr m n (D : 'M[F]_(m, n)) (R : 'M[F]_n) :
  R *m R^T = 1%:M -> sqnorm (D *m R) = sqnorm D.
Proof.
by move=> RR; rewrite -{1}[R]trmxK sqnorm_mul_orth // trmxK.
Qed.

End RotationFacts.

Section MoreFitFacts.

Variable F : realFieldType.
Implicit Types (m n k : nat).

Lemma X_new_sub n (M : model F n) m (A B : 'M[F]_(m, n)) :
  X_new M A - X_new M B = (A - B) *m model_R M.
Proof.
rewrite /X_new /dot -mulmxBl; congr (_ *m _).
by apply/matrixP => i j; rewrite !mxE opprB addrA subrK.
Qed.

Lemma X_new_X_simplified n (M : model F n) m (Z : 'M[F]_(m, n)) :
  (model_R M)^T *m model_R M = 1%:M -> X_new M (X_simplified M Z) = Z.
Proof.
move=> RR; rewrite /X_new /X_simplified /dot.
have -> : bsub (badd (Z *m (model_R M)^T) (model_Xbar M)) (model_Xbar M)
          = Z *m (model_R M)^T by apply/matrixP => i j; rewrite !mxE addrK.
by rewrite -mulmxA RR mulmx1.
Qed.

(** The covariance matrix is rebuilt from the fitted eigenpairs. *)
Lemma fit_spectral (eig : eigensolver F) m n (X : 'M[F]_(m, n))
    (M : model F n) :
  fit eig X = Ok M -> eig_ok_on eig X ->
  spec_covariance X
  = model_R M *m diag_mx (model_lamda M) *m (model_R M)^T.
Proof.
move=> fitM ok; have [_ RRt] := fit_R_unitary fitM ok.
by rewrite -(fit_eigen fitM ok) -mulmxA RRt mulmx1.
Qed.

Lemma fit_trace (eig : eigensolver F) m n (X : 'M[F]_(m, n)) (M : model F n) :
  fit eig X = Ok M -> eig_ok_on eig X ->
  np_sum (model_lamda M) = \tr (spec_covariance X).
Proof.
move=> fitM ok; have [RtR _] := fit_R_unitary fitM ok.
rewrite (fit_spectral fitM ok) mxtrace_mulC mulmxA RtR mul1mx mxtrace_diag.
by [].
Qed.

Lemma centered_gram m n (X : 'M[F]_(m, n)) :
  m != 1%N ->
  (bsub X (Xbar X))^T *m bsub X (Xbar X)
  = (len X - 1)%:~R *: spec_covariance X.
Proof.
move=> m1; rewrite spec_covarianceE // scalerA div1r divff ?scale1r //.
by rewrite len_pred_eq0.
Qed.

Lemma X_new_gram (eig : eigensolver F) m n (X : 'M[F]_(m, n)) (M : model F n) :
  fit eig X = Ok M -> eig_ok_on eig X ->
  (X_new M X)^T *m X_new M X = (len X - 1)%:~R *: diag_mx (model_lamda M).
Proof.
move=> fitM ok; have [RtR _] := fit_R_unitary fitM ok.
have [m1 _ EM] := fit_inv fitM.
have -> : X_new M X = bsub X (Xbar X) *m model_R M by rewrite /X_new EM.
rewrite trmx_mul mulmxA -[_ *m _ *m bsub _ _]mulmxA centered_gram //.
by rewrite -scalemxAr -scalemxAl -mulmxA (fit_eigen fitM ok) mulmxA RtR mul1mx.
Qed.

(** The quadratic form of the covariance in the fitted coordinates. *)
Lemma fit_quadratic (eig : eigensolver F) m n (X : 'M[F]_(m, n))
    (M : model F n) (u : 'rV[F]_n) :
  fit eig X = Ok M -> eig_ok_on eig X ->
  (u *m spec_covariance X *m u^T) 0 0
  = \sum_j model_lamda M 0 j * ((u *m model_R M) 0 j) ^+ 2.
Proof.
move=> fitM ok; rewrite (fit_spectral fitM ok).
have -> : u *m (model_R M *m diag_mx (model_lamda M) *m (model_R M)^T) *m u^T
          = (u *m model_R M) *m diag_mx (model_lamda M) *m (u *m model_R M)^T.
  by rewrite trmx_mul !mulmxA.
move: (u *m model_R M) => c.
rewrite mul_mx_diag mxE; apply: eq_bigr => j _.
by rewrite !mxE; ring.
Qed.

Lemma sq_sum_unit n (u : 'rV[F]_n) (R : 'M[F]_n) :
  R *m R^T = 1%:M -> \sum_j ((u *m R) 0 j) ^+ 2 = (u *m u^T) 0 0.
Proof.
move=> RR.
have -> : (u *m u^T) 0 0 = ((u *m R) *m (u *m R)^T) 0 0.
  by rewrite trmx_mul mulmxA -(mulmxA u) RR mulmx1.
move: (u *m R) => c.
by rewrite [RHS]mxE; apply: eq_bigr => j _; rewrite mxE expr2.
Qed.

End MoreFitFacts.

Section DataFacts.

Variable F : realFieldType.
Implicit Types (m n k p : nat).

Lemma row_X_new n (M : model F n) m (A : 'M[F]_(m, n)) i :
  row i (X_new M A) = X_new M (row i A).
Proof.
rewrite /X_new /dot row_mul; congr (_ *m _).
by apply/rowP => j; rewrite !mxE.
Qed.

Lemma bsubE m n (X : 'M[F]_(m, n)) (v : 'rV[F]_n) :
  bsub X v = X - const_mx 1 *m v.
Proof.
apply/matrixP => i j; rewrite !mxE big_ord_recl big_ord0 !mxE.
by rewrite mul1r addr0.
Qed.

Lemma XbarE m n (X : 'M[F]_(m, n)) :
  Xbar X = m%:R^-1 *: (const_mx 1 *m X).
Proof.
apply/rowP => j; rewrite !mxE mulrC; congr (_ * _).
by apply: eq_bigr => i _; rewrite mxE mul1r.
Qed.

Lemma Xbar_dot m n p (X : 'M[F]_(m, n)) (A : 'M[F]_(n, p)) :
  Xbar (dot X A) = Xbar X *m A.
Proof. by rewrite !XbarE /dot mulmxA scalemxAl. Qed.

Lemma centered_dot m n p (X : 'M[F]_(m, n)) (A : 'M[F]_(n, p)) :
  bsub (dot X A) (Xbar (dot X A)) = bsub X (Xbar X) *m A.
Proof. by rewrite !bsubE Xbar_dot /dot mulmxBl mulmxA. Qed.

Lemma Xbar_badd m n (X : 'M[F]_(m, n)) (v : 'rV[F]_n) :
  (0 < m)%N -> Xbar (badd X v) = Xbar X + v.
Proof.
move=> m0; apply/rowP => j; rewrite !mxE.
under eq_bigr do rewrite mxE.
rewrite big_split /= sumr_const card_ord -mulr_natr mulrDl mulfK //.
by rewrite pnatr_eq0 -lt0n.
Qed.

Lemma centered_badd m n (X : 'M[F]_(m, n)) (v : 'rV[F]_n) :
  bsub (badd X v) (Xbar (badd X v)) = bsub X (Xbar X).
Proof.
case: m X => [|m] X; first by apply/matrixP => -[].
rewrite Xbar_badd //; apply/matrixP => i j; rewrite !mxE.
by rewrite opprD addrACA subrr addr0.
Qed.

Lemma Xbar_take_rows m n (ix : m.-tuple 'I_m) (X : 'M[F]_(m, n)) :
  injective (tnth ix) -> Xbar (take_rows_idx X ix) = Xbar X.
Proof.
move=> inj; apply/rowP => j; rewrite !mxE; congr (_ / _).
rewrite [RHS](reindex_inj inj) /=.
by apply: eq_bigr => i _; rewrite mxE.
Qed.

Lemma gram_take_rows m n (ix : m.-tuple 'I_m) (A : 'M[F]_(m, n)) :
  injective (tnth ix) ->
  (take_rows_idx A ix)^T *m take_rows_idx A ix = A^T *m A.
Proof.
move=> inj; apply/matrixP => i j; rewrite !mxE [RHS](reindex_inj inj) /=.
by apply: eq_bigr => l _; rewrite !mxE.
Qed.

Lemma centered_take_rows m n (ix : m.-tuple 'I_m) (X : 'M[F]_(m, n)) :
  injective (tnth ix) ->
  bsub (take_rows_idx X ix) (Xbar (take_rows_idx X ix))
  = take_rows_idx (bsub X (Xbar X)) ix.
Proof.
by move=> inj; rewrite Xbar_take_rows //; apply/matrixP => i j; rewrite !mxE.
Qed.

Lemma zero_cols_from_idem m n k (Z : 'M[F]_(m, n)) :
  zero_cols_from k (zero_cols_from k Z) = zero_cols_from k Z.
Proof. by apply/matrixP => i j; rewrite !mxE; case: (k <= j)%N. Qed.

Lemma zero_cols_from_le m n k1 k2 (Z : 'M[F]_(m, n)) i (j : 'I_n) :
  (k1 <= k2)%N -> (k2 <= j)%N -> zero_cols_from k1 Z i j = 0.
Proof. by move=> k12 k2j; rewrite mxE (leq_trans k12 k2j). Qed.

Lemma Sigma_dotE m n p (X : 'M[F]_(m, n)) (A : 'M[F]_(n, p)) (S : 'M[F]_n) :
  Sigma X = Ok S -> Sigma (dot X A) = Ok (A^T *m S *m A).
Proof.
rewrite /Sigma -[len (dot X A)]/(len X).
case: (pydiv _ _) => [c|] //= [<-]; congr Ok.
by rewrite centered_dot /dot trmx_mul -scalemxAr -scalemxAl !mulmxA.
Qed.

Lemma fit_lamda_descending (eig : eigensolver F) m n (X : 'M[F]_(m, n))
    (M : model F n) (j1 j2 : 'I_n) :
  fit eig X = Ok M -> (j1 <= j2)%N ->
  model_lamda M 0 j2 <= model_lamda M 0 j1.
Proof. by move=> /fit_inv[_ _ ->] le12 /=; rewrite !mxE idx_descending. Qed.

Lemma fit_lamda_ge0 (eig : eigensolver F) m n (X : 'M[F]_(m, n))
    (M : model F n) (j : 'I_n) :
  (2 <= m)%N -> fit eig X = Ok M -> eig_spec_on eig X ->
  0 <= model_lamda M 0 j.
Proof.
move=> m2 /fit_inv[_ SX ->] /(_ _ SX) spec /=; rewrite mxE.
exact: psd_eig_nonneg (spec_covariance_psd X m2) spec.
Qed.

(** Two equal features: the data is an outer product. *)
Lemma column_stack_same m (x_1 : 'rV[F]_m) :
  column_stack x_1 x_1 = x_1^T *m (const_mx 1 : 'rV[F]_2).
Proof.
apply/matrixP => i j; rewrite !mxE big_ord_recl big_ord0 !mxE.
by rewrite mulr1 addr0; case: ifP.
Qed.

End DataFacts.

Section LoopFacts.

Variable F : realFieldType.
Implicit Types (m n k p : nat).

Lemma mul_scalarE n (c : 'rV[F]_n) (l : F) : mul_scalar c l = l *: c.
Proof. by apply/rowP => j; rewrite !mxE mulrC. Qed.

(** The loop adds the products whose position is below [n_components]. *)
Lemma reconstruct_loopE n k (cl : seq ('rV[F]_n * F)) (acc : 'rV[F]_n) cnt :
  reconstruct_loop k cl (acc, cnt)
  = (acc + \sum_(0 <= i < size cl | (cnt + i < k)%N)
             mul_scalar (nth (0, 0) cl i).1 (nth (0, 0) cl i).2,
     (cnt + size cl)%N).
Proof.
elim: cl acc cnt => [|[c l] cl IH] acc cnt /=.
  by rewrite big_nil addr0 addn0.
rewrite IH addSnnS; congr (_, _).
rewrite [in RHS]big_mkcond big_nat_recl //= addn0 [in LHS]big_mkcond /=.
by case: (cnt < k)%N; rewrite -?addrA ?add0r;
  under eq_bigr do rewrite addSnnS.
Qed.

Lemma size_rows_entries p n (C : 'M[F]_(p, n)) (z : 'rV[F]_p) :
  size (zip (rows_of C) (entries_of z)) = p.
Proof.
by rewrite /rows_of /entries_of size_zip !size_map -enumT size_enum_ord minnn.
Qed.

Lemma nth_rows_entries p n (C : 'M[F]_(p, n)) (z : 'rV[F]_p) (i : 'I_p) :
  nth (0, 0) (zip (rows_of C) (entries_of z)) i = (row i C, z 0 i).
Proof.
rewrite /rows_of /entries_of nth_zip ?size_map //.
rewrite (nth_map i) ?size_enum_ord // (nth_map i) ?size_enum_ord //.
by rewrite nth_ord_enum.
Qed.

Lemma X_reconstructedE p n (C : 'M[F]_(p, n)) (z : 'rV[F]_p)
    (mean : 'rV[F]_n) k :
  X_reconstructed k (rows_of C) (entries_of z) mean
  = zero_cols_from k z *m C + mean.
Proof.
rewrite /X_reconstructed reconstruct_loopE /= add0r size_rows_entries.
congr (_ + _); rewrite big_mkord mulmx_sum_row [LHS]big_mkcond /=.
apply: eq_bigr => i _; rewrite nth_rows_entries /= mul_scalarE !mxE add0n.
by rewrite (leqNgt k); case: (i < k)%N; rewrite /= ?scale0r.
Qed.

Lemma zero_cols_from0 m n (Z : 'M[F]_(m, n)) : zero_cols_from 0 Z = 0.
Proof. by apply/matrixP => i j; rewrite !mxE. Qed.

Lemma zero_cols_from_ge m n k (Z : 'M[F]_(m, n)) :
  (n <= k)%N -> zero_cols_from k Z = Z.
Proof.
move=> nk; apply/matrixP => i j; rewrite mxE leqNgt.
by rewrite (leq_trans (ltn_ord j) nk).
Qed.

Lemma badd_row n (z v : 'rV[F]_n) : badd z v = z + v.
Proof. by apply/rowP => j; rewrite !mxE. Qed.

End LoopFacts.

Section CountFacts.

Implicit Types (N : nat).

Lemma diagonal_le_count N (c : 'M[nat]_N) : (diagonal_sum c <= count_sum c)%N.
Proof.
apply: leq_sum => i _.
by rewrite (bigD1 i) //= leq_addr.
Qed.

Lemma count_split N (c : 'M[nat]_N) :
  (count_sum c
   = diagonal_sum c + \sum_i \sum_(j < N | j != i) c i j)%N.
Proof.
rewrite /count_sum /diagonal_sum -big_split /=.
by apply: eq_bigr => i _; rewrite (bigD1 i).
Qed.

Lemma off_diagonal_eq0 N (c : 'M[nat]_N) :
  ((\sum_i \sum_(j < N | j != i) c i j)%N == 0%N)
  = [forall i, forall j, (i != j) ==> (c i j == 0%N)].
Proof.
rewrite sum_nat_eq0; apply: eq_forallb => i /=.
rewrite sum_nat_eq0; apply: eq_forallb => j /=.
by rewrite eq_sym.
Qed.

End CountFacts.

Section CumsumFacts.

Variable F : realFieldType.
Implicit Types (n : nat).

Lemma sum_const_le n (j : 'I_n) (a : F) :
  \sum_(i < n | (i <= j)%N) a = a * (j.+1)%:R.
Proof.
have -> : \sum_(i < n | (i <= j)%N) a = \sum_(i < n | (i < j.+1)%N) a.
  by apply: eq_bigl => i; rewrite ltnS.
by rewrite (big_ord_narrow (ltn_ord j)) sumr_const card_ord mulr_natr.
Qed.

(** The running sum of a non-increasing sequence of total 1 stays above
    the diagonal. *)
Lemma cumsum_lower_bound n (r : 'rV[F]_n) (j : 'I_n) :
  (forall j1 j2 : 'I_n, (j1 <= j2)%N -> r 0 j2 <= r 0 j1) ->
  np_sum r = 1 ->
  (j.+1)%:R / n%:R <= cumsum r 0 j.
Proof.
move=> desc tot; have n0 : 0 < n%:R :> F by rewrite ltr0n (leq_ltn_trans _ (ltn_ord j)).
rewrite ler_pdivrMr // mxE.
pose a := r 0 j.
pose P := \sum_(i < n | (i <= j)%N) (r 0 i - a).
pose Q := \sum_(i < n | ~~ (i <= j)%N) (r 0 i - a).
have P0 : 0 <= P.
  by apply: sumr_ge0 => i ij; rewrite subr_ge0 desc.
have Q0 : Q <= 0.
  apply: sumr_le0 => i; rewrite -ltnNge => /ltnW ji.
  by rewrite subr_le0 desc.
have SE : \sum_(i < n | (i <= j)%N) r 0 i = P + a * (j.+1)%:R.
  by rewrite /P sumrB sum_const_le subrK.
have TE : 1 = P + Q + a * n%:R.
  have <- : \sum_i (r 0 i - a) = P + Q.
    by rewrite (bigID (fun i : 'I_n => (i <= j)%N)).
  by rewrite sumrB sumr_const card_ord mulr_natr subrK.
have jn : (j.+1)%:R <= n%:R :> F by rewrite ler_nat.
have j0 : 0 <= (j.+1)%:R :> F by rewrite ler0n.
rewrite SE; move: (j.+1)%:R n%:R jn j0 n0 TE => jj nn jn j0 n0 TE.
have H1 : 0 <= (nn - jj) * P by rewrite mulr_ge0 // subr_ge0.
have H2 : 0 <= jj * - Q by rewrite mulr_ge0 // oppr_ge0.
have H3 : jj = jj * (P + Q + a * nn) by rewrite -TE mulr1.
by nra.
Qed.

End CumsumFacts.

(** * Further statements *)

Section MoreStatements.

Variable F : realFieldType.
Implicit Types (m n k p : nat).

(** X1. The matrix of cell 3 is a rotation whenever its two entries satisfy
    c^2 + s^2 = 1, as a cosine and a sine do: its columns are orthonormal,
    [np.dot(X,R.T)] is undone by [np.dot(.,R)], and every sample keeps its
    length. *)
Theorem rotate_isometry (c s : F) m (X : 'M[F]_(m, 2)) :
  c ^+ 2 + s ^+ 2 = 1 ->
  [/\ orthonormal_cols (rotation c s),
      dot (rotate c s X) (rotation c s) = X,
      forall i, (rotate c s X i 0) ^+ 2 + (rotate c s X i 1) ^+ 2
                = (X i 0) ^+ 2 + (X i 1) ^+ 2
    & sqnorm (rotate c s X) = sqnorm X].
Proof.
move=> cs; have cs' : c ^+ 2 = 1 - s ^+ 2 by rewrite -cs addrK.
split.
- exact/orthonormal_colsP/rotation_trK.
- by rewrite /rotate /dot -mulmxA rotation_trK // mulmx1.
- move=> i; have [-> ->] := rotate_entries c s X i.
  by move: (X i 0) (X i 1) => a b; ring: cs'.
- by rewrite /rotate /dot sqnorm_mul_orth //; exact: rotation_trK.
Qed.

(** X2. With the angle of cell 3, for which the sine is the opposite of the
    cosine, data whose two features are equal (cell 1: [x_2 = x_1.copy()])
    is rotated onto the first axis: the second coordinate of every sample
    is 0 and the first is 2 c x_1. *)
Theorem rotate_equal_features (c s : F) m (x_1 : 'rV[F]_m) :
  s = - c ->
  forall i,
    rotate c s (column_stack x_1 x_1) i 1 = 0 /\
    rotate c s (column_stack x_1 x_1) i 0 = 2 * c * x_1 0 i.
Proof.
move=> -> i; have [-> ->] := rotate_entries c (- c) (column_stack x_1 x_1) i.
by rewrite !mxE /=; move: (x_1 0 i) => x; split; ring.
Qed.

(** X3. Projection after reconstruction is the identity on coordinates:
    [np.dot(X_simplified - Xbar, R)] gives back the coordinates that
    [X_simplified] was built from.  Hence cutting to k coordinates and
    reconstructing is idempotent. *)
Theorem X_new_X_simplified_roundtrip (eig : eigensolver F) m n
    (X : 'M[F]_(m, n)) (M : model F n) m' (Z Y : 'M[F]_(m', n)) :
  fit eig X = Ok M -> eig_ok_on eig X ->
  X_new M (X_simplified M Z) = Z
  /\ (forall k,
       let cut W := X_simplified M (zero_cols_from k (X_new M W)) in
       cut (cut Y) = cut Y).
Proof.
move=> fitM ok; have [RtR _] := fit_R_unitary fitM ok.
split=> [|k /=]; rewrite !X_new_X_simplified //.
by rewrite zero_cols_from_idem.
Qed.

(** X4. The projection keeps distances: two samples, from the training
    data or from held-out data ([X_new_test]), are as far apart after
    projection on all n components as before. *)
Theorem X_new_keeps_distances (eig : eigensolver F) m n
    (X : 'M[F]_(m, n)) (M : model F n) ma mb
    (A : 'M[F]_(ma, n)) (B : 'M[F]_(mb, n)) i j :
  fit eig X = Ok M -> eig_ok_on eig X ->
  sqnorm (row i (X_new M A) - row j (X_new M B))
  = sqnorm (row i A - row j B).
Proof.
move=> fitM ok; have [_ RRt] := fit_R_unitary fitM ok.
by rewrite !row_X_new X_new_sub sqnorm_mul_orthr.
Qed.

(** X5. The fitted eigenvalues add up to the total variance of the data,
    the sum of the diagonal of [Sigma]; [lamda.sum()] in
    [variance_fraction] is that total. *)
Theorem lamda_sum_total_variance (eig : eigensolver F) m n
    (X : 'M[F]_(m, n)) (M : model F n) (S : 'M[F]_n) :
  fit eig X = Ok M -> eig_ok_on eig X -> Sigma X = Ok S ->
  np_sum (model_lamda M) = \sum_j S j j.
Proof.
move=> fitM ok SX; have [_ SX' _] := fit_inv fitM.
move: SX; rewrite SX' => -[<-].
exact: fit_trace fitM ok.
Qed.


(** X6. Covariance of linearly transformed data: if [Sigma] of [X] is [S],
    then [Sigma] of [np.dot(X,A)] is A^T S A.  This is what the rotation of
    cell 3 and the projection of cell 11 do to the covariance. *)
Theorem Sigma_dot m n p (X : 'M[F]_(m, n)) (A : 'M[F]_(n, p)) (S : 'M[F]_n) :
  Sigma X = Ok S -> Sigma (dot X A) = Ok (A^T *m S *m A).
Proof. exact: Sigma_dotE. Qed.

(** X7. The first principal component is the direction of largest
    variance: along any unit direction [u] the variance of the data,
    [Sigma] of the one feature [np.dot(X,u)], is at most the first
    eigenvalue, and along [R[:,0]] it is the first eigenvalue. *)
Theorem first_component_max_variance (eig : eigensolver F) m n
    (X : 'M[F]_(m, n.+1)) (M : model F n.+1) (S : 'M[F]_n.+1)
    (u : 'rV[F]_n.+1) :
  fit eig X = Ok M -> eig_ok_on eig X -> Sigma X = Ok S ->
  (u *m u^T) 0 0 = 1 ->
  [/\ Sigma (dot X u^T) = Ok (u *m S *m u^T),
      (u *m S *m u^T) 0 0 <= model_lamda M 0 0,
      Sigma (dot X (col 0 (model_R M)))
      = Ok ((col 0 (model_R M))^T *m S *m col 0 (model_R M))
    & ((col 0 (model_R M))^T *m S *m col 0 (model_R M)) 0 0
      = model_lamda M 0 0].
Proof.
move=> fitM ok SX u1; have [RtR RRt] := fit_R_unitary fitM ok.
have [_ SX' EM] := fit_inv fitM.
have ES : S = spec_covariance X by move: SX; rewrite SX' => -[].
have desc j : model_lamda M 0 j <= model_lamda M 0 0.
  exact: fit_lamda_descending fitM _.
split.
- by rewrite (Sigma_dotE _ SX) trmxK.
- rewrite ES (fit_quadratic u fitM ok) -[leRHS]mulr1 -u1 -(sq_sum_unit u RRt).
  rewrite mulr_sumr; apply: ler_sum => j _.
  by rewrite ler_wpM2r // sqr_ge0.
- exact: Sigma_dotE.
- rewrite -{2}[col 0 (model_R M)]trmxK ES (fit_quadratic _ fitM ok).
  rewrite tr_col -row_mul RtR (bigD1 0) //= big1 => [j j0|].
    by rewrite !mxE /= eq_sym (negbTE j0) expr0n /= mulr0.
  by rewrite !mxE /= expr1n mulr1 addr0.
Qed.

(** X8. What is lost by keeping k components (cell 17 keeps one of two):
    the squared reconstruction error of the training data is (m-1) times
    the sum of the dropped eigenvalues. *)
Theorem truncation_error (eig : eigensolver F) m n
    (X : 'M[F]_(m, n)) (M : model F n) k :
  fit eig X = Ok M -> eig_ok_on eig X ->
  sqnorm (X - X_simplified M (zero_cols_from k (X_new M X)))
  = (m%:R - 1) * \sum_(j < n | (k <= j)%N) model_lamda M 0 j.
Proof.
move=> fitM ok; have [RtR RRt] := fit_R_unitary fitM ok.
rewrite X_simplified_residual // sqnorm_mul_orth //.
have G := X_new_gram fitM ok.
rewrite /sqnorm exchange_big /= mulr_sumr [RHS]big_mkcond /=.
apply: eq_bigr => j _.
have Gj := congr1 (fun B : 'M[F]_n => B j j) G.
rewrite /= !mxE eqxx mulr1n /len rmorphB /= in Gj.
case: (leqP k j) => [kj|kj].
  rewrite -Gj; apply: eq_bigr => i _.
  by rewrite !mxE kj subr0 expr2.
by apply: big1 => i _; rewrite !mxE leqNgt kj /= subrr expr0n.
Qed.

(** X9. Keeping more components never makes the reconstruction worse, for
    the training data as for any other data of the same width. *)
Theorem truncation_error_monotone (eig : eigensolver F) m n
    (X : 'M[F]_(m, n)) (M : model F n) m' (X' : 'M[F]_(m', n)) k1 k2 :
  fit eig X = Ok M -> eig_ok_on eig X -> (k1 <= k2)%N ->
  sqnorm (X' - X_simplified M (zero_cols_from k2 (X_new M X')))
  <= sqnorm (X' - X_simplified M (zero_cols_from k1 (X_new M X'))).
Proof.
move=> fitM ok k12; have [RtR RRt] := fit_R_unitary fitM ok.
rewrite !X_simplified_residual // !sqnorm_mul_orth //.
by apply: truncation_optimal => i j; exact: zero_cols_from_le.
Qed.


(** X10. Shifting every sample by the same vector moves the mean by that
    vector and changes nothing else: same [Sigma], same eigenvalues and
    eigenvectors, same projection of the training data. *)
Theorem fit_shift_invariant (eig : eigensolver F) m n
    (X : 'M[F]_(m, n)) (v : 'rV[F]_n) (M : model F n) :
  (0 < m)%N -> fit eig X = Ok M ->
  [/\ Xbar (badd X v) = Xbar X + v,
      Sigma (badd X v) = Sigma X,
      fit eig (badd X v)
      = Ok (Model (model_Xbar M + v) (model_lamda M) (model_R M))
    & X_new (Model (model_Xbar M + v) (model_lamda M) (model_R M)) (badd X v)
      = X_new M X].
Proof.
move=> m0 /fit_inv[_ SX ->] /=.
have ES : Sigma (badd X v) = Sigma X.
  by rewrite /Sigma centered_badd -[len (badd X v)]/(len X).
split=> //; first exact: Xbar_badd.
  by rewrite /fit ES SX /= Xbar_badd.
by rewrite /X_new /= -(Xbar_badd X v m0) centered_badd.
Qed.

(** X11. The order of the samples does not matter: reordering the rows of
    the data by a permutation leaves mean, [Sigma] and the whole fit
    unchanged. *)
Theorem fit_sample_order_invariant (eig : eigensolver F) m n
    (X : 'M[F]_(m, n)) (ix : m.-tuple 'I_m) :
  injective (tnth ix) ->
  [/\ Xbar (take_rows_idx X ix) = Xbar X,
      Sigma (take_rows_idx X ix) = Sigma X
    & fit eig (take_rows_idx X ix) = fit eig X].
Proof.
move=> inj; have EX := Xbar_take_rows X inj.
have ES : Sigma (take_rows_idx X ix) = Sigma X.
  by rewrite /Sigma centered_take_rows // /dot gram_take_rows.
by split=> //; rewrite /fit ES EX.
Qed.




(** X13. The reconstruction loop of cell 49 computes the matrix formula of
    cell 17: the coefficients from position [n_components] on are dropped,
    the others weight the component rows, and the mean is added.  With
    [n_components = 0] the result is the mean; with [n_components] at
    least the number of components all of them are used.  On the rows of
    [R.T] and the mean of a fitted model it is [X_simplified] of the cut
    coordinates. *)
Theorem X_reconstructed_formula p n (C : 'M[F]_(p, n)) (z : 'rV[F]_p)
    (mean : 'rV[F]_n) k :
  [/\ X_reconstructed k (rows_of C) (entries_of z) mean
      = zero_cols_from k z *m C + mean,
      X_reconstructed 0 (rows_of C) (entries_of z) mean = mean,
      (p <= k)%N ->
      X_reconstructed k (rows_of C) (entries_of z) mean = z *m C + mean
    & forall (M : model F p),
        X_reconstructed k (rows_of (model_R M)^T) (entries_of z) (model_Xbar M)
        = X_simplified M (zero_cols_from k z)].
Proof.
split=> [||pk|M]; rewrite !X_reconstructedE //.
- by rewrite zero_cols_from0 mul0mx add0r.
- by rewrite zero_cols_from_ge.
- by rewrite /X_simplified badd_row.
Qed.



(** X15. Each variance fraction of a fit lies between 0 and 1, and the
    cumulative fraction of cell 26 is at least the share of components
    kept: the first j+1 of n components explain at least (j+1)/n of the
    variance. *)
Theorem cumulative_fraction_lower_bound (eig : eigensolver F) m n
    (X : 'M[F]_(m, n)) (M : model F n) (r : 'rV[F]_n) (j : 'I_n) :
  (2 <= m)%N -> fit eig X = Ok M -> eig_spec_on eig X ->
  variance_fraction (model_lamda M) = Some r ->
  [/\ 0 <= r 0 j, r 0 j <= 1 & (j.+1)%:R / n%:R <= cumsum r 0 j].
Proof.
move=> m2 fitM spec; rewrite /variance_fraction.
have n0 : (0 < n)%N by exact: leq_ltn_trans (ltn_ord j).
rewrite n0 andbT; case: ifP => // /negbT s0 [<-].
have lam0 i : 0 <= model_lamda M 0 i by exact: fit_lamda_ge0 m2 fitM spec.
have s_gt0 : 0 < np_sum (model_lamda M).
  by rewrite lt_neqAle eq_sym s0 sumr_ge0.
have le_s : model_lamda M 0 j <= np_sum (model_lamda M).
  by rewrite /np_sum (bigD1 j) //= lerDl sumr_ge0.
split.
- by rewrite mxE divr_ge0 // ltW.
- by rewrite mxE ler_pdivrMr // mul1r.
- apply: cumsum_lower_bound; last exact: ratio_sum.
  move=> j1 j2 le12; rewrite !mxE ler_pM2r ?invr_gt0 //.
  exact: fit_lamda_descending fitM le12.
Qed.

End MoreStatements.

(** * The further statements at the concrete data *)

Lemma ix_swap_inj : injective (tnth ix_swap).
Proof.
move=> i j; rewrite !(tnth_nth 0) /=.
by have [->|->] := ord2_cases i; have [->|->] := ord2_cases j.
Qed.

Lemma u10_unit : (u10 *m u10^T) 0 0 = 1.
Proof. by rewrite !mxE !big_ord_recl big_ord0 !mxE. Qed.

Lemma column_stack_x11 : column_stack x11 x11 = X1.
Proof. by apply/matrixP => i j; rewrite !mxE; case: ifP. Qed.

Lemma fit_x11 : fit eig_diag (column_stack x11 x11) = Ok M1.
Proof. by rewrite column_stack_x11 fit_X1. Qed.

Lemma eig_diag_ok_x11 : eig_ok_on eig_diag (column_stack x11 x11).
Proof. by rewrite column_stack_x11; exact: eig_diag_ok_X1. Qed.

Lemma pythagoras_345 : (3%:Q / 5%:Q) ^+ 2 + (4%:Q / 5%:Q) ^+ 2 = 1.
Proof. by []. Qed.

(** X1 at the rotation with cosine 3/5 and sine 4/5. *)
Lemma rotate_isometry_witness :
  (3%:Q / 5%:Q) ^+ 2 + (4%:Q / 5%:Q) ^+ 2 = 1 /\
  [/\ orthonormal_cols (rotation (3%:Q / 5%:Q) (4%:Q / 5%:Q)),
      dot (rotate (3%:Q / 5%:Q) (4%:Q / 5%:Q) X0)
          (rotation (3%:Q / 5%:Q) (4%:Q / 5%:Q)) = X0,
      forall i, (rotate (3%:Q / 5%:Q) (4%:Q / 5%:Q) X0 i 0) ^+ 2
                + (rotate (3%:Q / 5%:Q) (4%:Q / 5%:Q) X0 i 1) ^+ 2
                = (X0 i 0) ^+ 2 + (X0 i 1) ^+ 2
    & sqnorm (rotate (3%:Q / 5%:Q) (4%:Q / 5%:Q) X0) = sqnorm X0].
Proof.
split; first exact: pythagoras_345.
exact: (rotate_isometry X0 pythagoras_345).
Defined.

(** X2 at the features (0, 2), cosine 1 and sine -1. *)
Lemma rotate_equal_features_witness :
  (-1 : rat) = - 1 /\
  forall i,
    rotate 1 (-1) (column_stack x02 x02) i 1 = 0 /\
    rotate 1 (-1) (column_stack x02 x02) i 0 = 2 * 1 * x02 0 i.
Proof.
split; first by [].
exact: (@rotate_equal_features rat 1 (-1) 2 x02 erefl).
Defined.

(** X3 at [M0]. *)
Lemma X_new_X_simplified_roundtrip_witness :
  [/\ fit eig_diag X0 = Ok M0, eig_ok_on eig_diag X0
    & X_new M0 (X_simplified M0 X1) = X1
      /\ (forall k,
           let cut W := X_simplified M0 (zero_cols_from k (X_new M0 W)) in
           cut (cut X0) = cut X0)].
Proof.
split; [exact: fit_X0 | exact: eig_diag_ok_X0 |].
exact: (X_new_X_simplified_roundtrip X1 X0 fit_X0 eig_diag_ok_X0).
Defined.

(** X4 at [M0], a row of [X0] against a row of [X1]. *)
Lemma X_new_keeps_distances_witness :
  [/\ fit eig_diag X0 = Ok M0, eig_ok_on eig_diag X0
    & sqnorm (row 1 (X_new M0 X0) - row 0 (X_new M0 X1))
      = sqnorm (row 1 X0 - row 0 X1)].
Proof.
split; [exact: fit_X0 | exact: eig_diag_ok_X0 |].
exact: (X_new_keeps_distances X0 X1 1 0 fit_X0 eig_diag_ok_X0).
Defined.

(** X5 at [X0]. *)
Lemma lamda_sum_total_variance_witness :
  [/\ fit eig_diag X0 = Ok M0, eig_ok_on eig_diag X0,
      Sigma X0 = Ok (diag_mx (\row_j (if (j : nat) == 0%N then 0 else 2)))
    & np_sum (model_lamda M0)
      = \sum_j (diag_mx (\row_j (if (j : nat) == 0%N then 0 else 2))
                  : 'M[rat]_2) j j].
Proof.
split; [exact: fit_X0 | exact: eig_diag_ok_X0 | exact: Sigma_X0 |].
exact: (lamda_sum_total_variance fit_X0 eig_diag_ok_X0 Sigma_X0).
Defined.

(** X6 at [X0] and the rotation of X1. *)
Lemma Sigma_dot_witness :
  Sigma X0 = Ok (diag_mx (\row_j (if (j : nat) == 0%N then 0 else 2))) /\
  Sigma (dot X0 (rotation (3%:Q / 5%:Q) (4%:Q / 5%:Q))^T)
  = Ok ((rotation (3%:Q / 5%:Q) (4%:Q / 5%:Q))^T^T
        *m diag_mx (\row_j (if (j : nat) == 0%N then 0 else 2))
        *m (rotation (3%:Q / 5%:Q) (4%:Q / 5%:Q))^T).
Proof.
split; first exact: Sigma_X0.
exact: (Sigma_dot _ Sigma_X0).
Defined.

(** X7 at [X0] and the direction (1, 0). *)
Lemma first_component_max_variance_witness :
  [/\ fit eig_diag X0 = Ok M0, eig_ok_on eig_diag X0,
      Sigma X0 = Ok (diag_mx (\row_j (if (j : nat) == 0%N then 0 else 2))),
      (u10 *m u10^T) 0 0 = 1
    & let S : 'M[rat]_2 :=
        diag_mx (\row_j (if (j : nat) == 0%N then 0 else 2)) in
      [/\ Sigma (dot X0 u10^T) = Ok (u10 *m S *m u10^T),
          (u10 *m S *m u10^T) 0 0 <= model_lamda M0 0 0,
          Sigma (dot X0 (col 0 (model_R M0)))
          = Ok ((col 0 (model_R M0))^T *m S *m col 0 (model_R M0))
        & ((col 0 (model_R M0))^T *m S *m col 0 (model_R M0)) 0 0
          = model_lamda M0 0 0]].
Proof.
split; [exact: fit_X0 | exact: eig_diag_ok_X0 | exact: Sigma_X0
       | exact: u10_unit |].
exact: (first_component_max_variance fit_X0 eig_diag_ok_X0 Sigma_X0 u10_unit).
Defined.

(** X8 at [X0] with one component kept. *)
Lemma truncation_error_witness :
  [/\ fit eig_diag X0 = Ok M0, eig_ok_on eig_diag X0
    & sqnorm (X0 - X_simplified M0 (zero_cols_from 1 (X_new M0 X0)))
      = (2%:R - 1) * \sum_(j < 2 | (1 <= j)%N) model_lamda M0 0 j].
Proof.
split; [exact: fit_X0 | exact: eig_diag_ok_X0 |].
exact: (truncation_error 1 fit_X0 eig_diag_ok_X0).
Defined.

(** X9 at [M0] and the data [X1], one component against two. *)
Lemma truncation_error_monotone_witness :
  [/\ fit eig_diag X0 = Ok M0, eig_ok_on eig_diag X0, (1 <= 2)%N
    & sqnorm (X1 - X_simplified M0 (zero_cols_from 2 (X_new M0 X1)))
      <= sqnorm (X1 - X_simplified M0 (zero_cols_from 1 (X_new M0 X1)))].
Proof.
split; [exact: fit_X0 | exact: eig_diag_ok_X0 | exact: isT |].
exact: (truncation_error_monotone X1 fit_X0 eig_diag_ok_X0 (isT : 1 <= 2)%N).
Defined.

(** X10 at [X0] shifted by (1, 1). *)
Lemma fit_shift_invariant_witness :
  [/\ (0 < 2)%N, fit eig_diag X0 = Ok M0
    & [/\ Xbar (badd X0 x11) = Xbar X0 + x11,
          Sigma (badd X0 x11) = Sigma X0,
          fit eig_diag (badd X0 x11)
          = Ok (Model (model_Xbar M0 + x11) (model_lamda M0) (model_R M0))
        & X_new (Model (model_Xbar M0 + x11) (model_lamda M0) (model_R M0))
                (badd X0 x11)
          = X_new M0 X0]].
Proof.
split; [exact: isT | exact: fit_X0 |].
exact: (@fit_shift_invariant rat eig_diag 2 2 X0 x11 M0 isT fit_X0).
Defined.

(** X11 at [X0] with its two samples swapped. *)
Lemma fit_sample_order_invariant_witness :
  injective (tnth ix_swap) /\
  [/\ Xbar (take_rows_idx X0 ix_swap) = Xbar X0,
      Sigma (take_rows_idx X0 ix_swap) = Sigma X0
    & fit eig_diag (take_rows_idx X0 ix_swap) = fit eig_diag X0].
Proof.
split; first exact: ix_swap_inj.
exact: (fit_sample_order_invariant eig_diag X0 ix_swap_inj).
Defined.


(** X13 on the rows of [R.T] of [M0], the coordinates (0, 2) and three
    components asked of two. *)
Lemma X_reconstructed_formula_witness :
  (2 <= 3)%N /\
  X_reconstructed 3 (rows_of (model_R M0)^T) (entries_of x02) (model_Xbar M0)
  = x02 *m (model_R M0)^T + model_Xbar M0.
Proof.
split; first exact: isT.
have [_ _ all _] :=
  X_reconstructed_formula (model_R M0)^T x02 (model_Xbar M0) 3.
exact: all.
Defined.

Lemma accuracy_c_wrong : accuracy rat c_wrong = Some (3%:Q / 4%:Q).
Proof.
by rewrite /accuracy /count_sum /diagonal_sum !big_ord_recl !big_ord0 !mxE.
Qed.

Lemma accuracy_c_right : accuracy rat c_right = Some 1.
Proof.
rewrite /accuracy /count_sum /diagonal_sum !big_ord_recl !big_ord0 !mxE /=.
by rewrite divff.
Qed.


(** X15 at [X0]: the first of two components explains all the variance. *)
Lemma cumulative_fraction_lower_bound_witness :
  [/\ (2 <= 2)%N, fit eig_diag X0 = Ok M0, eig_spec_on eig_diag X0,
      variance_fraction (model_lamda M0)
      = Some (\row_j (if (j : nat) == 0%N then 1 else 0))
    & let r : 'rV[rat]_2 := \row_j (if (j : nat) == 0%N then 1 else 0) in
      [/\ 0 <= r 0 0, r 0 0 <= 1 & (1%:R / 2%:R : rat) <= cumsum r 0 0]].
Proof.
split; [exact: isT | exact: fit_X0 | exact: eig_diag_spec_X0
       | exact: variance_fraction_M0 |].
exact: (@cumulative_fraction_lower_bound rat eig_diag 2 2 X0 M0 _ 0 isT fit_X0
          eig_diag_spec_X0 variance_fraction_M0).
Defined.
